(** * ndarray-iter-stacks: a shallow embedding of [lib/main.js]

    The iterator returned by [nditerStacks( x, dims[, options] )] walks the
    sub-arrays of an ndarray that are obtained by keeping the "stack"
    dimensions [dims] at full range while the remaining ("free") dimensions
    are enumerated in row-major order.

    The development follows the source closely: JavaScript values that can
    reach the function are a small inductive type, thrown exceptions are an
    error monad, the closure variables of the returned iterator object
    ([idx], [ibuf], [i], [N], [FLG], ...) are a record that [next] and [end]
    pass along explicitly.

    Numbers.  All JavaScript numbers are doubles.  Integers (dimension
    indices, extents, the call counter) are modelled as [Z]; the quantity [N]
    that the source obtains by repeated division is modelled as an exact
    rational extended with the IEEE special values that a division by zero
    produces.  On every path the source can reach the divisions are exact, so
    the model agrees with double arithmetic as long as the element count of
    the array is below 2^53.

    Helpers.  [main.js] imports its helpers ([normalizeIndex], [numel],
    [take], [put], [nextCartesianIndex], [args2multislice], [slice] and the
    argument validators) from other [@stdlib] packages.  Each is modelled
    here after its documented behaviour, including the exceptions it can
    throw, next to a comment that names the package. *)

From Stdlib Require Import ZArith QArith Qcanon Lia.
From stdpp Require Import base list numbers strings sorting.

Local Open Scope Z_scope.

(** ** JavaScript values and thrown errors *)

(** The part of an ndarray the iterator looks at: its shape and the
    read-only flag.  The data buffer is never touched by the iterator. *)
Record ndarray := mk_ndarray {
  nd_shape : list Z;
  nd_readonly : bool
}.

(** A valid ndarray has non-negative extents. *)
Definition ndarray_ok (x : ndarray) : Prop := Forall (λ s, 0 ≤ s) (nd_shape x).

#[local] Unset Elimination Schemes.
Inductive jsval :=
  | JUndefined
  | JNull
  | JBool (b : bool)
  | JInt (z : Z)                          (* a primitive number with an integer value *)
  | JFrac                                 (* any other primitive number *)
  | JStr (s : string)
  | JArr (elems : list jsval)
  | JObj (props : list (string * jsval))  (* a plain object *)
  | JNd (x : ndarray)
  | JFun.
#[local] Set Elimination Schemes.

(** One constructor per [throw] of [main.js] (in source order), followed by
    the exceptions of the helpers that [next] calls. *)
Inductive error :=
  | TypeError_first_argument_not_ndarray
  | TypeError_second_argument_not_integer_array
  | TypeError_options_not_object
  | TypeError_readonly_not_boolean
  | Error_cannot_write_to_read_only_array
  | TypeError_insufficient_dimensions
  | RangeError_dimension_index
  | Error_not_ascending
  | Error_not_unique
  | RangeError_index_out_of_bounds        (* take, put: index mode 'throw' *)
  | Error_not_broadcast_compatible        (* put *)
  | TypeError_null_index_buffer           (* put on a null value list *)
  | TypeError_multislice_argument         (* args2multislice *)
  | RangeError_slice_dimensions           (* slice *)
  | RangeError_slice_out_of_bounds.       (* slice, strict mode *)

Inductive res (A : Type) : Type :=
  | Ok (a : A)
  | Throw (e : error).
Arguments Ok {A} a.
Arguments Throw {A} e.

#[global] Instance res_ret : MRet res := λ A a, Ok a.
#[global] Instance res_bind : MBind res := λ A B f m,
  match m with
  | Ok a => f a
  | Throw e => Throw e
  end.

(** ** Numbers *)

(** The value of the variable [N]: a finite rational or one of the special
    values produced by dividing by zero. *)
Inductive num :=
  | Fin (q : Qc)
  | PInf
  | NInf
  | NaN.

Definition num_of_Z (z : Z) : num := Fin (Qc_of_Z z).

(** [N /= s] for an integer [s]. *)
Definition num_div (n : num) (s : Z) : num :=
  match n with
  | Fin q =>
      if s =? 0 then
        match (q ?= 0)%Qc with
        | Eq => NaN
        | Gt => PInf
        | Lt => NInf
        end
      else Fin (q / Qc_of_Z s)%Qc
  | PInf => if s <? 0 then NInf else PInf
  | NInf => if s <? 0 then PInf else NInf
  | NaN => NaN
  end.

(** [N /= shape[ d ]], where a read outside the array gives [undefined]. *)
Definition num_div_opt (n : num) (s : option Z) : num :=
  match s with
  | Some s => num_div n s
  | None => NaN
  end.

(** [i >= N] for an integer [i]. *)
Definition ge_num (i : Z) (n : num) : bool :=
  match n with
  | Fin q => Qle_bool q (inject_Z i)
  | PInf => false
  | NInf => true
  | NaN => false
  end.

(** ** Arrays *)

(** An element of the index arrays [idx] and [ibuf]: an integer, [null],
    [undefined] (a hole, or a read outside the array) or [NaN]. *)
Inductive slot :=
  | SNum (z : Z)
  | SNull
  | SUndef
  | SNaN.

(** [a[ i ]] *)
Definition arr_get {A} (a : list A) (i : Z) : option A :=
  if i <? 0 then None else a !! Z.to_nat i.

(** [a[ i ] = v]: a write past the end extends the array with holes; a
    negative [i] defines a property and leaves the elements alone. *)
Definition arr_set (a : list slot) (i : Z) (v : slot) : list slot :=
  if i <? 0 then a
  else if (Z.to_nat i <? length a)%nat then <[Z.to_nat i := v]> a
  else a ++ replicate (Z.to_nat i - length a)%nat SUndef ++ [v].

Definition len {A} (a : list A) : Z := Z.of_nat (length a).

(** [@stdlib/array-base-zeros] *)
Definition zeros (n : nat) : list slot := replicate n (SNum 0).

(** [@stdlib/ndarray-base-normalize-index] *)
Definition normalizeIndex (idx max : Z) : Z :=
  if idx <? 0 then
    let idx' := idx + (max + 1) in
    if idx' <? 0 then -1 else idx'
  else if idx >? max then -1
  else idx.

(** [@stdlib/ndarray-base-numel] *)
Definition numel (shape : list Z) : Z :=
  match shape with
  | [] => 0
  | _ => foldl Z.mul 1 shape
  end.

(** Index resolution of [take] and [put] in mode ['throw']. *)
Definition ind_throw (i max : Z) : res Z :=
  if (i <? 0) || (i >? max) then Throw RangeError_index_out_of_bounds else Ok i.

(** [@stdlib/array-base-take]: [take( x, indices, 'throw' )] *)
Fixpoint take {A} (x : list A) (indices : list Z) : res (list A) :=
  match indices with
  | [] => Ok []
  | k :: indices' =>
      j ← ind_throw k (len x - 1);
      match arr_get x j with
      | Some v => out ← take x indices'; Ok (v :: out)
      | None => Throw RangeError_index_out_of_bounds
      end
  end.

(** The loop of [put]: [x[ indices[ i ] ] = values[ iv ]; iv += sv]. *)
Fixpoint put_loop (x : list slot) (indices : list Z) (values : list slot)
    (iv : nat) (sv : nat) : res (list slot) :=
  match indices with
  | [] => Ok x
  | k :: indices' =>
      j ← ind_throw k (len x - 1);
      put_loop (arr_set x j (default SUndef (values !! iv))) indices' values
        (iv + sv)%nat sv
  end.

(** [@stdlib/array-base-put]: [put( x, indices, values, 'throw' )]; [values]
    is [None] when the caller passes [null]. *)
Definition put (x : list slot) (indices : list Z) (values : option (list slot))
    : res (list slot) :=
  match values with
  | None => Throw TypeError_null_index_buffer
  | Some values =>
      if (length values =? 1)%nat then put_loop x indices values 0 0
      else if (length values =? length indices)%nat then put_loop x indices values 0 1
      else Throw Error_not_broadcast_compatible
  end.

(** *** The odometer: [@stdlib/ndarray-base-next-cartesian-index] *)

(** The operand [idx[ i ] + 1] and the result of [... % shape[ i ]]. *)
Definition slot_succ (s : option slot) : option Z :=
  match s with
  | Some (SNum z) => Some (z + 1)
  | Some SNull => Some 1
  | _ => None
  end.

Definition slot_mod (a : option Z) (s : option Z) : slot :=
  match a, s with
  | Some a, Some s => if s =? 0 then SNaN else SNum (Z.rem a s)
  | _, _ => SNaN
  end.

(** [j > 0] *)
Definition slot_pos (j : slot) : bool :=
  match j with
  | SNum z => 0 <? z
  | _ => false
  end.

(** The row-major search for the first dimension that does not carry.  The
    iterator passes the same array as [idx] and as [out], so the loop works
    in place, and the loops that copy the untouched entries from [idx] to
    [out] change nothing.  [carry_loop shape a n] runs the loop from
    [i = n-1] down to [0]. *)
Fixpoint carry_loop (shape : list Z) (a : list slot) (n : nat) : list slot :=
  match n with
  | O => a
  | S i =>
      let j := slot_mod (slot_succ (a !! i)) (shape !! i) in
      let a' := arr_set a (Z.of_nat i) j in
      if slot_pos j then a' else carry_loop shape a' i
  end.

(** [nextCartesianIndex.assign( shape, 'row-major', idx, dim, idx )]; the
    result is [None] when the function returns [null]. *)
Definition nextCartesianIndex (shape : list Z) (idx : list slot) (dim : Z)
    : option (list slot) :=
  let ndims := len shape in
  let dim' := if dim <? 0 then dim + ndims else dim in
  if (dim' <? 0) || (dim' >=? ndims) then None
  else Some (carry_loop shape idx (S (Z.to_nat dim'))).

(** *** Slices and views *)

(** [@stdlib/slice-base-args2multislice]: every argument has to be an
    integer, [null] or [undefined] (there are no [Slice] objects here). *)
Definition multislice_arg (s : slot) : bool :=
  match s with
  | SNaN => false
  | _ => true
  end.

Definition args2multislice (args : list slot) : res (list slot) :=
  if forallb multislice_arg args then Ok args
  else Throw TypeError_multislice_argument.

(** A view on an ndarray: the array it shares its buffer with, the slice
    that selects it, its shape and whether it can be written to. *)
Record view := mk_view {
  v_base : ndarray;
  v_spec : list slot;
  v_shape : list Z;
  v_writable : bool
}.

(** One dimension of a slice in strict mode: [Some None] drops the dimension
    (an integer index within bounds), [Some (Some n)] keeps it with extent
    [n] (a full range), [None] is an index outside the bounds. *)
Definition slice_dim (s : slot) (extent : Z) : option (option Z) :=
  match s with
  | SNum z =>
      let z' := if z <? 0 then extent + z else z in
      if (z' <? 0) || (z' >=? extent) then None else Some None
  | _ => Some (Some extent)
  end.

Fixpoint slice_shape (s : list slot) (shape : list Z) : res (list Z) :=
  match s, shape with
  | [], [] => Ok []
  | a :: s', n :: shape' =>
      match slice_dim a n with
      | None => Throw RangeError_slice_out_of_bounds
      | Some None => slice_shape s' shape'
      | Some (Some m) => sh ← slice_shape s' shape'; Ok (m :: sh)
      end
  | _, _ => Throw RangeError_slice_dimensions
  end.

(** [@stdlib/ndarray-base-slice]: [slice( x, s, true, writable )] *)
Definition slice (x : ndarray) (s : list slot) (writable : bool) : res view :=
  if negb (length s =? length (nd_shape x))%nat then Throw RangeError_slice_dimensions
  else sh ← slice_shape s (nd_shape x); Ok (mk_view x s sh writable).

(** ** Argument validators *)

(** [@stdlib/assert-is-integer-array] ([.primitives]): an array all of
    whose elements are primitive integer-valued numbers.  The validator is
    built with [@stdlib/assert-tools-array-like-function], which answers
    [false] for an array of length zero. *)
Definition isInteger (v : jsval) : bool :=
  match v with
  | JInt _ => true
  | _ => false
  end.

Definition isIntegerArray (v : jsval) : bool :=
  match v with
  | JArr elems => negb (length elems =? 0)%nat && forallb isInteger elems
  | _ => false
  end.

(** [@stdlib/array-base-copy], on a value that passed [isIntegerArray]. *)
Definition copy (v : jsval) : list Z :=
  match v with
  | JArr elems => omap (λ e, match e with JInt z => Some z | _ => None end) elems
  | _ => []
  end.

(** [hasOwnProp( o, k )] together with the read [o[ k ]]. *)
Fixpoint get_prop (props : list (string * jsval)) (k : string) : option jsval :=
  match props with
  | [] => None
  | (k', v) :: props' => if String.eqb k' k then Some v else get_prop props' k
  end.

(** ** The iterator *)

(** The variables of [nditerStacks] that the closures [next], [end] and
    [factory] read and write. *)
Record iterator := mk_iterator {
  it_x : ndarray;
  it_dims : list Z;         (* the normalized copy of [dims] *)
  it_writable : bool;       (* [opts.writable] *)
  it_indices : list Z;
  it_sh : list Z;
  it_idx : list slot;
  it_ibuf : list slot;
  it_i : Z;
  it_N : num;
  it_FLG : bool
}.

(** Lines 111-128: the options.  The result is [opts.writable]; [None] is a
    call with two arguments. *)
Definition check_options (x : ndarray) (options : option jsval) : res bool :=
  match options with
  | None => Ok false
  | Some (JObj props) =>
      match get_prop props "readonly" with
      | None => Ok false
      | Some (JBool readonly) =>
          let writable := negb readonly in
          if writable && nd_readonly x then Throw Error_cannot_write_to_read_only_array
          else Ok writable
      | Some _ => Throw TypeError_readonly_not_boolean
      end
  | Some _ => Throw TypeError_options_not_object
  end.

(** Lines 142-148: normalize the dimension indices, in place. *)
Fixpoint normalize_dims (ndims : Z) (dims : list Z) : res (list Z) :=
  match dims with
  | [] => Ok []
  | d0 :: dims' =>
      let d := normalizeIndex d0 (ndims - 1) in
      if d =? -1 then Throw RangeError_dimension_index
      else out ← normalize_dims ndims dims'; Ok (d :: out)
  end.

(** Lines 155-159: [dims[ i ] > dims[ i+1 ]] for [i < M-1]. *)
Fixpoint check_ascending (dims : list Z) : res unit :=
  match dims with
  | a :: (b :: _) as dims' =>
      if a >? b then Throw Error_not_ascending else check_ascending dims'
  | _ => Ok ()
  end.

(** Lines 161-168: [dims[ i ] === dims[ i-1 ]] for [1 <= i < M].  The
    assignment [dims[ j ] = dims[ i ]] always has [j = i]. *)
Fixpoint check_unique (dims : list Z) : res unit :=
  match dims with
  | a :: (b :: _) as dims' =>
      if b =? a then Throw Error_not_unique else check_unique dims'
  | _ => Ok ()
  end.

(** Lines 181-189: the dimensions that are not stacked.  [n] counts the
    remaining iterations, [i] is the loop variable and [j] the position in
    [dims]; [dims[ j ]] past the end is [undefined] and equals no [i]. *)
Fixpoint free_indices (dims : list Z) (n : nat) (i : Z) (j : nat) : list Z :=
  match n with
  | O => []
  | S n' =>
      match dims !! j with
      | Some d =>
          if i =? d then free_indices dims n' (i + 1) (S j)
          else i :: free_indices dims n' (i + 1) j
      | None => i :: free_indices dims n' (i + 1) j
      end
  end.

(** Lines 129-206: everything after the argument and option checks. *)
Definition setup (x : ndarray) (dims : list Z) (writable : bool) : res iterator :=
  let M := len dims in
  let shape := nd_shape x in
  let ndims := len shape in
  if ndims <=? M then Throw TypeError_insufficient_dimensions
  else
    dims ← normalize_dims ndims dims;
    let N := numel shape in
    let FLG := N =? 0 in
    _ ← check_ascending dims;
    _ ← check_unique dims;
    let N := foldl (λ n d, num_div_opt n (arr_get shape d)) (num_of_Z N) dims in
    let idx := foldl (λ a d, arr_set a d SNull) (zeros (length shape)) dims in
    let indices := free_indices dims (length shape) 0 0 in
    sh ← take shape indices;
    ibuf ← take idx indices;
    Ok {| it_x := x; it_dims := dims; it_writable := writable;
          it_indices := indices; it_sh := sh; it_idx := idx; it_ibuf := ibuf;
          it_i := -1; it_N := N; it_FLG := FLG |}.

(** [nditerStacks( x, dims[, options] )] *)
Definition nditerStacks (x dims : jsval) (options : option jsval) : res iterator :=
  match x with
  | JNd x =>
      if negb (isIntegerArray dims) then Throw TypeError_second_argument_not_integer_array
      else
        writable ← check_options x options;
        setup x (copy dims) writable
  | _ => Throw TypeError_first_argument_not_ndarray
  end.

(** What [next] and [return] hand back: [{ 'value': ..., 'done': ... }]. *)
Inductive iter_value :=
  | VView (v : view)
  | VPass (v : jsval).

Record iter_result := mk_result {
  r_value : option iter_value;
  r_done : bool
}.

Definition set_i (it : iterator) (i : Z) : iterator :=
  {| it_x := it_x it; it_dims := it_dims it; it_writable := it_writable it;
     it_indices := it_indices it; it_sh := it_sh it; it_idx := it_idx it;
     it_ibuf := it_ibuf it; it_i := i; it_N := it_N it; it_FLG := it_FLG it |}.

Definition set_cursor (it : iterator) (ibuf idx : list slot) : iterator :=
  {| it_x := it_x it; it_dims := it_dims it; it_writable := it_writable it;
     it_indices := it_indices it; it_sh := it_sh it; it_idx := idx;
     it_ibuf := ibuf; it_i := it_i it; it_N := it_N it; it_FLG := it_FLG it |}.

Definition set_FLG (it : iterator) : iterator :=
  {| it_x := it_x it; it_dims := it_dims it; it_writable := it_writable it;
     it_indices := it_indices it; it_sh := it_sh it; it_idx := it_idx it;
     it_ibuf := it_ibuf it; it_i := it_i it; it_N := it_N it; it_FLG := true |}.

(** Lines 214-237 *)
Definition next (it : iterator) : res (iter_result * iterator) :=
  let it := set_i it (it_i it + 1) in
  if it_FLG it || ge_num (it_i it) (it_N it) then Ok (mk_result None true, it)
  else
    s ← args2multislice (it_idx it);
    let ibuf := nextCartesianIndex (it_sh it) (it_ibuf it) (-1) in
    idx ← put (it_idx it) (it_indices it) ibuf;
    v ← slice (it_x it) s (it_writable it);
    Ok (mk_result (Some (VView v)) false, set_cursor it (default [] ibuf) idx).

(** Lines 246-257: [return( [value] )]; [None] is a call without argument. *)
Definition end_ (value : option jsval) (it : iterator) : iter_result * iterator :=
  (mk_result (VPass <$> value) true, set_FLG it).

(** Lines 265-267: the [Symbol.iterator] method, which passes the object
    [opts], that is [{ 'writable': ... }], as the options argument. *)
Definition factory (it : iterator) : res iterator :=
  nditerStacks (JNd (it_x it)) (JArr (JInt <$> it_dims it))
    (Some (JObj [("writable"%string, JBool (it_writable it))])).

(** ** Driving an iterator *)

Inductive call :=
  | CallNext
  | CallReturn (value : option jsval).

Definition step (c : call) (it : iterator) : res (iter_result * iterator) :=
  match c with
  | CallNext => next it
  | CallReturn value => Ok (end_ value it)
  end.

(** The results of a sequence of calls, in order, and the final state. *)
Fixpoint run (cs : list call) (it : iterator) : res (list iter_result * iterator) :=
  match cs with
  | [] => Ok ([], it)
  | c :: cs' =>
      '(r, it') ← step c it;
      '(rs, it'') ← run cs' it';
      Ok (r :: rs, it'')
  end.

(** The number of [next()] calls that return a value before the first one
    that returns [done: true]; [None] when [fuel] calls do not reach it or a
    call throws. *)
Fixpoint count_views (fuel : nat) (it : iterator) : option nat :=
  match fuel with
  | O => None
  | S fuel' =>
      match next it with
      | Ok (r, it') => if r_done r then Some O else S <$> count_views fuel' it'
      | Throw _ => None
      end
  end.

(** ** Specification-side notions *)

(** The normalized value of a dimension index that is within range. *)
Definition norm (ndims d : Z) : Z := if d <? 0 then d + ndims else d.

(** A dimension list the constructor accepts for an array of the given
    shape: fewer indices than dimensions, every index within
    [[-ndims, ndims-1]], and the normalized indices strictly ascending. *)
Definition valid_dims (shape ds : list Z) : Prop :=
  (length ds < length shape)%nat ∧
  Forall (λ d, - len shape ≤ d < len shape) ds ∧
  Sorted Z.lt (norm (len shape) <$> ds).

(** Marks the stacked dimensions among [0 .. ndims-1]. *)
Definition mask_from (D : list Z) (i : Z) (n : nat) : list bool :=
  (λ k, bool_decide (k ∈ D)) <$> seqZ i (Z.of_nat n).

Definition stack_mask (D : list Z) (ndims : nat) : list bool := mask_from D 0 ndims.

(** The positions of the free dimensions, counted from [i]. *)
Fixpoint free_pos (m : list bool) (i : Z) : list Z :=
  match m with
  | [] => []
  | true :: m' => free_pos m' (i + 1)
  | false :: m' => i :: free_pos m' (i + 1)
  end.

(** The entries of [l] at the free, respectively the stacked, dimensions. *)
Fixpoint select_free {A} (m : list bool) (l : list A) : list A :=
  match m, l with
  | b :: m', a :: l' => if b then select_free m' l' else a :: select_free m' l'
  | _, _ => []
  end.

Fixpoint select_stacked {A} (m : list bool) (l : list A) : list A :=
  match m, l with
  | b :: m', a :: l' => if b then a :: select_stacked m' l' else select_stacked m' l'
  | _, _ => []
  end.

(** The slice specification for a coordinate over the free dimensions:
    [null] at a stacked dimension, the next coordinate entry at a free one. *)
Fixpoint scatter (m : list bool) (c : list slot) : list slot :=
  match m with
  | [] => []
  | true :: m' => SNull :: scatter m' c
  | false :: m' =>
      match c with
      | v :: c' => v :: scatter m' c'
      | [] => SUndef :: scatter m' []
      end
  end.

Definition slice_spec (D : list Z) (ndims : nat) (c : list Z) : list slot :=
  scatter (stack_mask D ndims) (SNum <$> c).

Definition product (l : list Z) : Z := foldr Z.mul 1 l.

(** The extents of the free dimensions and their product. *)
Definition free_shape (D : list Z) (shape : list Z) : list Z :=
  select_free (stack_mask D (length shape)) shape.

(** All coordinates below the extents [sh] in row-major order: the last
    entry varies fastest. *)
Fixpoint rowmajor (sh : list Z) : list (list Z) :=
  match sh with
  | [] => [[]]
  | s :: sh' => concat ((λ a, (a ::.) <$> rowmajor sh') <$> seqZ 0 s)
  end.

(** The successor of a coordinate, with the carry out of the first entry. *)
Fixpoint succ_coord (sh c : list Z) : list Z * bool :=
  match sh, c with
  | s :: sh', x :: c' =>
      let '(c'', carry) := succ_coord sh' c' in
      if carry then
        let j := Z.rem (x + 1) s in (j :: c'', negb (0 <? j))
      else (x :: c'', false)
  | _, _ => ([], true)
  end.

Definition in_bounds (sh c : list Z) : Prop := Forall2 (λ x s, 0 ≤ x < s) c sh.

Fixpoint count_free (m : list bool) : nat :=
  match m with
  | [] => O
  | b :: m' => if b then count_free m' else S (count_free m')
  end.

(** The value of [N] after lines 150 and 170-172. *)
Definition initial_N (shape D : list Z) : num :=
  foldl (λ n d, num_div_opt n (arr_get shape d)) (num_of_Z (numel shape)) D.

(** The closure variables when the coordinate over the free dimensions is
    [c] and the counter is [i]. *)
Definition cursor_state (x : ndarray) (D : list Z) (w : bool) (N : num)
    (flg : bool) (c : list Z) (i : Z) : iterator :=
  let m := stack_mask D (length (nd_shape x)) in
  {| it_x := x; it_dims := D; it_writable := w;
     it_indices := free_pos m 0; it_sh := select_free m (nd_shape x);
     it_idx := scatter m (SNum <$> c); it_ibuf := SNum <$> c;
     it_i := i; it_N := N; it_FLG := flg |}.

Definition origin (D : list Z) (ndims : nat) : list Z :=
  replicate (count_free (stack_mask D ndims)) 0.

(** The iterator as [nditerStacks] returns it. *)
Definition initial_state (x : ndarray) (D : list Z) (w : bool) : iterator :=
  cursor_state x D w (initial_N (nd_shape x) D) (numel (nd_shape x) =? 0)
    (origin D (length (nd_shape x))) (-1).

(** [chain sh c l e b]: the coordinates [c :: l] follow one another without
    carry, and the successor of the last one is [e] with carry [b]. *)
Fixpoint chain (sh c : list Z) (l : list (list Z)) (e : list Z) (b : bool) : Prop :=
  match l with
  | [] => succ_coord sh c = (e, b)
  | c' :: l' => succ_coord sh c = (c', false) ∧ chain sh c' l' e b
  end.

(** The result of a [next] call at coordinate [c]: a view selected by the
    slice specification for [c], whose shape is made of the stacked extents. *)
Definition view_at (x : ndarray) (D : list Z) (w : bool) (c : list Z) : iter_result :=
  mk_result
    (Some (VView (mk_view x (slice_spec D (length (nd_shape x)) c)
                    (select_stacked (stack_mask D (length (nd_shape x))) (nd_shape x))
                    w)))
    false.



(** The number of views of an iterator: none for an array without elements,
    otherwise the product of the free extents. *)
Definition total_steps (x : ndarray) (D : list Z) : Z :=
  if numel (nd_shape x) =? 0 then 0 else product (free_shape D (nd_shape x)).


(** The condition under which [next] answers [done: true] without looking at
    the arrays, evaluated on the current counter. *)
Definition finished (it : iterator) : bool :=
  it_FLG it || ge_num (it_i it) (it_N it).

#[global] Instance ndarray_ok_dec x : Decision (ndarray_ok x).
Proof. unfold ndarray_ok. apply _. Defined.

#[global] Instance valid_dims_dec shape ds : Decision (valid_dims shape ds).
Proof. unfold valid_dims. apply _. Defined.

(** Decides a closed decidable proposition by evaluation. *)
Ltac decide_now := apply (bool_decide_unpack _); vm_compute; exact I.

(** The exceptions that [nditerStacks] itself throws (lines 105-165). *)
Definition constructor_errors : list error :=
  [ TypeError_first_argument_not_ndarray;
    TypeError_second_argument_not_integer_array;
    TypeError_options_not_object;
    TypeError_readonly_not_boolean;
    Error_cannot_write_to_read_only_array;
    TypeError_insufficient_dimensions;
    RangeError_dimension_index;
    Error_not_ascending;
    Error_not_unique ].

(** The row-major linear index of a coordinate below the extents [sh]: the
    position of the coordinate when the last entry varies fastest. *)
Fixpoint ravel (sh c : list Z) : Z :=
  match sh, c with
  | s :: sh', x :: c' => x * product sh' + ravel sh' c'
  | _, _ => 0
  end.


(** * Proofs *)

(** ** Validation *)

Lemma bind_Ok {A B} (m : res A) (f : A → res B) b :
  m ≫= f = Ok b → ∃ a, m = Ok a ∧ f a = Ok b.
Proof. destruct m as [a|e]; simpl; [eauto | discriminate]. Qed.

Lemma normalizeIndex_spec ndims d :
  0 < ndims →
  (- ndims ≤ d < ndims ∧ normalizeIndex d (ndims - 1) = norm ndims d) ∨
  (¬ (- ndims ≤ d < ndims) ∧ normalizeIndex d (ndims - 1) = -1).
Proof.
  intros Hn. unfold normalizeIndex, norm.
  destruct (Z.ltb_spec d 0).
  - replace (d + (ndims - 1 + 1)) with (d + ndims) by lia.
    destruct (Z.ltb_spec (d + ndims) 0); [right | left]; lia.
  - destruct (Z.gtb_spec d (ndims - 1)); [right | left]; lia.
Qed.

Lemma norm_range ndims d : - ndims ≤ d < ndims → 0 ≤ norm ndims d < ndims.
Proof. unfold norm. destruct (Z.ltb_spec d 0); lia. Qed.

Lemma normalize_dims_inv ndims ds D :
  0 < ndims → normalize_dims ndims ds = Ok D →
  Forall (λ d, - ndims ≤ d < ndims) ds ∧ D = norm ndims <$> ds.
Proof.
  intros Hn. revert D. induction ds as [|d ds IH]; intros D; simpl.
  - intros [= <-]. auto.
  - destruct (normalizeIndex_spec ndims d Hn) as [[Hd ->]|[Hd ->]]; [|discriminate].
    pose proof (norm_range _ _ Hd).
    destruct (Z.eqb_spec (norm ndims d) (-1)); [lia|].
    intros (D' & HD' & [= <-])%bind_Ok.
    destruct (IH _ HD') as [? ->]. auto.
Qed.

Lemma normalize_dims_valid ndims ds :
  0 < ndims → Forall (λ d, - ndims ≤ d < ndims) ds →
  normalize_dims ndims ds = Ok (norm ndims <$> ds).
Proof.
  intros Hn. induction 1 as [|d ds Hd _ IH]; simpl; [done|].
  destruct (normalizeIndex_spec ndims d Hn) as [[_ ->]|[? _]]; [|done].
  pose proof (norm_range _ _ Hd).
  destruct (Z.eqb_spec (norm ndims d) (-1)); [lia|]. by rewrite IH.
Qed.

Lemma normalize_dims_throw ndims ds :
  0 < ndims → ¬ Forall (λ d, - ndims ≤ d < ndims) ds →
  normalize_dims ndims ds = Throw RangeError_dimension_index.
Proof.
  intros Hn. induction ds as [|d ds IH]; intros Hnot; simpl.
  - destruct Hnot. constructor.
  - destruct (normalizeIndex_spec ndims d Hn) as [[Hd ->]|[Hd ->]]; [|done].
    pose proof (norm_range _ _ Hd).
    destruct (Z.eqb_spec (norm ndims d) (-1)); [lia|].
    rewrite IH; [done|]. intros HF. apply Hnot. by constructor.
Qed.

(** The two order checks together accept exactly the strictly ascending
    lists. *)
Lemma checks_sorted D :
  check_ascending D = Ok () → check_unique D = Ok () → Sorted Z.lt D.
Proof.
  induction D as [|a [|b D] IH]; intros H1 H2.
  - constructor.
  - repeat constructor.
  - cbn [check_ascending check_unique] in H1, H2.
    destruct (Z.gtb_spec a b); [discriminate|].
    destruct (Z.eqb_spec b a); [discriminate|].
    constructor; [by apply IH|]. constructor. lia.
Qed.

Lemma sorted_checks D :
  Sorted Z.lt D → check_ascending D = Ok () ∧ check_unique D = Ok ().
Proof.
  induction D as [|a [|b D] IH]; intros HS; [done..|].
  apply Sorted_inv in HS as [HS Hhd]. apply HdRel_inv in Hhd.
  cbn [check_ascending check_unique].
  destruct (Z.gtb_spec a b); [lia|].
  destruct (Z.eqb_spec b a); [lia|]. by apply IH.
Qed.


(** ** The stack mask and the loops of the set-up *)

Lemma mask_from_S D i n :
  mask_from D i (S n) = bool_decide (i ∈ D) :: mask_from D (i + 1) n.
Proof.
  unfold mask_from. rewrite seqZ_cons by lia. simpl.
  do 3 f_equal; lia.
Qed.

Lemma mask_from_length D i n : length (mask_from D i n) = n.
Proof. unfold mask_from. rewrite length_fmap, length_seqZ. lia. Qed.

Lemma mask_from_ext D D' i n :
  (∀ k, i ≤ k → k ∈ D ↔ k ∈ D') → mask_from D i n = mask_from D' i n.
Proof.
  intros H. unfold mask_from. apply list_fmap_ext.
  intros p k [-> _]%lookup_seqZ. apply bool_decide_ext, H. lia.
Qed.

Lemma sorted_cons_inv (d : Z) D :
  StronglySorted Z.lt (d :: D) → StronglySorted Z.lt D ∧ Forall (λ k, d < k) D.
Proof. intros H. by apply StronglySorted_inv in H. Qed.

Lemma free_indices_spec n D i j :
  StronglySorted Z.lt (drop j D) → Forall (λ d, i ≤ d) (drop j D) →
  free_indices D n i j = free_pos (mask_from (drop j D) i n) i.
Proof.
  revert i j. induction n as [|n IH]; intros i j HS Hge; [done|].
  rewrite mask_from_S. cbn [free_indices].
  destruct (D !! j) as [d|] eqn:Hj.
  - rewrite (drop_S _ _ _ Hj) in HS, Hge |- *.
    apply sorted_cons_inv in HS as [HS Hlt].
    apply Forall_cons in Hge as [Hid Hge].
    destruct (Z.eqb_spec i d) as [->|Hne].
    + rewrite bool_decide_eq_true_2 by left. cbn [free_pos].
      rewrite (IH (d + 1) (S j) HS);
        [|eapply Forall_impl; [exact Hlt|]; simpl; lia].
      f_equal. apply mask_from_ext. intros k Hk. rewrite elem_of_cons. split; [auto|].
      intros [->|?]; [lia|done].
    + rewrite bool_decide_eq_false_2; cycle 1.
      { rewrite elem_of_cons. intros [->|Hin]; [done|].
        rewrite Forall_forall in Hlt. specialize (Hlt _ Hin). lia. }
      cbn [free_pos]. f_equal.
      rewrite (IH (i + 1) j); rewrite (drop_S _ _ _ Hj); [done| |].
      * by apply SSorted_cons.
      * constructor; [lia|]. eapply Forall_impl; [exact Hlt|]. simpl. lia.
  - apply lookup_ge_None in Hj. rewrite drop_ge in * by done.
    rewrite bool_decide_eq_false_2 by apply not_elem_of_nil.
    cbn [free_pos]. f_equal.
    rewrite (IH (i + 1) j); rewrite drop_ge by done; [done|constructor..].
Qed.

(** The entries of an array at the stacked dimensions, read in the order
    of the (ascending) dimension list. *)
Lemma stacked_reads {A} (l pre : list A) D :
  StronglySorted Z.lt D → Forall (λ d, len pre ≤ d < len pre + len l) D →
  (λ d, arr_get (pre ++ l) d) <$> D
  = Some <$> select_stacked (mask_from D (len pre) (length l)) l.
Proof.
  revert pre D. induction l as [|a l IH]; intros pre D HS Hr.
  - destruct D as [|d D]; [done|]. apply Forall_cons in Hr as [Hd _].
    unfold len in Hd. simpl in Hd. lia.
  - cbn [length]. rewrite mask_from_S. cbn [select_stacked].
    assert (Hpre : len (pre ++ [a]) = len pre + 1).
    { unfold len. rewrite length_app. simpl. lia. }
    destruct D as [|d D].
    + rewrite bool_decide_eq_false_2 by apply not_elem_of_nil.
      specialize (IH (pre ++ [a]) [] HS (Forall_nil_2 _)).
      rewrite Hpre in IH. by rewrite <- IH.
    + apply sorted_cons_inv in HS as [HS Hlt].
      apply Forall_cons in Hr as [Hd Hr].
      assert (Hlen : len (a :: l) = len l + 1) by (unfold len; simpl; lia).
      destruct (decide (len pre = d)) as [<-|Hne].
      * rewrite bool_decide_eq_true_2 by left. rewrite !fmap_cons. f_equal.
        { unfold arr_get. destruct (Z.ltb_spec (len pre) 0); [unfold len in *; lia|].
          unfold len. rewrite Nat2Z.id. by rewrite list_lookup_middle. }
        specialize (IH (pre ++ [a]) D HS). rewrite Hpre, <- (assoc_L (++)) in IH.
        simpl in IH. rewrite IH.
        -- f_equal. f_equal. apply mask_from_ext. intros k Hk. rewrite elem_of_cons.
           split; [auto|]. intros [->|?]; [lia|done].
        -- rewrite Forall_forall in Hlt, Hr |- *. intros k Hk.
           specialize (Hlt _ Hk). specialize (Hr _ Hk). lia.
      * rewrite bool_decide_eq_false_2; cycle 1.
        { rewrite elem_of_cons. intros [?|Hin]; [done|].
          rewrite Forall_forall in Hlt. specialize (Hlt _ Hin). lia. }
        specialize (IH (pre ++ [a]) (d :: D)). rewrite Hpre, <- (assoc_L (++)) in IH.
        simpl in IH. simpl. rewrite IH; [done|by apply SSorted_cons|].
        constructor; [lia|].
        rewrite Forall_forall in Hlt, Hr |- *. intros k Hk.
        specialize (Hlt _ Hk). specialize (Hr _ Hk). lia.
Qed.


Lemma free_pos_length m i : length (free_pos m i) = count_free m.
Proof. revert i. induction m as [|[] m IH]; intros i; simpl; auto. Qed.

Lemma select_free_length {A} m (l : list A) :
  length m = length l → length (select_free m l) = count_free m.
Proof.
  revert l. induction m as [|[] m IH]; intros [|a l] [=]; simpl; auto.
Qed.

Lemma scatter_length m c : length (scatter m c) = length m.
Proof.
  revert c. induction m as [|[] m IH]; intros c; simpl; [done|by rewrite IH|].
  destruct c; simpl; by rewrite IH.
Qed.

Lemma select_free_scatter m c :
  length c = count_free m → select_free m (scatter m c) = c.
Proof.
  revert c. induction m as [|[] m IH]; intros c Hc; simpl in *.
  - by destruct c.
  - by apply IH.
  - destruct c as [|v c]; [done|]. simpl. f_equal. apply IH. by injection Hc.
Qed.

Lemma scatter_zeros m :
  scatter m (zeros (count_free m)) = (λ b : bool, if b then SNull else SNum 0) <$> m.
Proof. induction m as [|[] m IH]; simpl; [done|by rewrite IH|]. f_equal. exact IH. Qed.

Lemma arr_set_in_range a d v :
  0 ≤ d < len a → arr_set a d v = <[Z.to_nat d := v]> a.
Proof.
  intros Hd. unfold arr_set, len in *.
  destruct (Z.ltb_spec d 0); [lia|].
  destruct (Nat.ltb_spec (Z.to_nat d) (length a)); [done|lia].
Qed.

Lemma arr_get_in_range {A} (a : list A) d :
  0 ≤ d → arr_get a d = a !! Z.to_nat d.
Proof. intros Hd. unfold arr_get. destruct (Z.ltb_spec d 0); [lia|done]. Qed.

(** Lines 177-179: writing [null] at the stacked dimensions. *)
Lemma mark_lookup D a p :
  Forall (λ d, 0 ≤ d < len a) D →
  foldl (λ a d, arr_set a d SNull) a D !! p
  = if bool_decide (Z.of_nat p ∈ D) then (λ _, SNull) <$> a !! p else a !! p.
Proof.
  revert a. induction D as [|d D IH]; intros a HD.
  - by rewrite bool_decide_eq_false_2 by apply not_elem_of_nil.
  - apply Forall_cons in HD as [Hd HD]. cbn [foldl].
    rewrite arr_set_in_range by done.
    rewrite IH; cycle 1.
    { unfold len in *. rewrite length_insert. done. }
    destruct (decide (p = Z.to_nat d)) as [->|Hne].
    + rewrite (bool_decide_eq_true_2 (_ ∈ d :: D)) by (rewrite Z2Nat.id by lia; left).
      unfold len in Hd. rewrite list_lookup_insert_eq by lia.
      destruct (lookup_lt_is_Some_2 a (Z.to_nat d)) as [v ->]; [lia|].
      by case_bool_decide.
    + rewrite list_lookup_insert_ne by done.
      rewrite (bool_decide_ext (Z.of_nat p ∈ d :: D) (Z.of_nat p ∈ D)); [done|].
      rewrite elem_of_cons. split; [|auto]. intros [?|?]; [lia|done].
Qed.

Lemma mask_from_lookup D n p :
  stack_mask D n !! p
  = if decide (p < n)%nat then Some (bool_decide (Z.of_nat p ∈ D)) else None.
Proof.
  unfold stack_mask, mask_from. rewrite list_lookup_fmap.
  destruct (decide (p < n)%nat).
  - rewrite (lookup_seqZ_lt 0 (Z.of_nat n) p) by lia. simpl. by rewrite Z.add_0_l.
  - rewrite lookup_seqZ_ge by lia. done.
Qed.

Lemma mark_zeros D n :
  Forall (λ d, 0 ≤ d < Z.of_nat n) D →
  foldl (λ a d, arr_set a d SNull) (zeros n) D
  = scatter (stack_mask D n) (zeros (count_free (stack_mask D n))).
Proof.
  intros HD. rewrite scatter_zeros. apply list_eq. intros p.
  rewrite mark_lookup by (unfold len, zeros; by rewrite length_replicate).
  rewrite list_lookup_fmap, mask_from_lookup. unfold zeros.
  destruct (decide (p < n)%nat).
  - rewrite lookup_replicate_2 by done. by case_bool_decide.
  - rewrite (proj1 (lookup_replicate_None n (SNum 0) p)) by lia. by case_bool_decide.
Qed.

(** Lines 191-192: [take] at the free positions. *)
Lemma take_free {A} m (pre l : list A) :
  length m = length l →
  take (pre ++ l) (free_pos m (len pre)) = Ok (select_free m l).
Proof.
  revert pre l. induction m as [|b m IH]; intros pre [|a l] Hl; try done.
  injection Hl as Hl.
  assert (Hpre : len (pre ++ [a]) = len pre + 1).
  { unfold len. rewrite length_app. simpl. lia. }
  specialize (IH (pre ++ [a]) l Hl). rewrite Hpre, <- (assoc_L (++)) in IH.
  destruct b; cbn [free_pos select_free]; [exact IH|].
  cbn [take]. unfold ind_throw.
  assert (Hlen : len (pre ++ a :: l) = len pre + len l + 1).
  { unfold len. rewrite length_app. simpl. lia. }
  destruct (Z.ltb_spec (len pre) 0); [unfold len in *; lia|].
  destruct (Z.gtb_spec (len pre) (len (pre ++ a :: l) - 1)); [unfold len in *; lia|].
  simpl. rewrite arr_get_in_range by done. unfold len at 1.
  rewrite Nat2Z.id, list_lookup_middle by done.
  simpl in IH. by rewrite IH.
Qed.

(** Line 230: [put] at the free positions replaces the coordinate. *)
Lemma put_loop_scatter m pre vpre c c' :
  length c = count_free m → length c' = count_free m →
  put_loop (pre ++ scatter m c) (free_pos m (len pre)) (vpre ++ c') (length vpre) 1
  = Ok (pre ++ scatter m c').
Proof.
  revert pre vpre c c'. induction m as [|b m IH]; intros pre vpre c c' Hc Hc'.
  - simpl in *. by destruct c, c'.
  - assert (Hpre : ∀ v, len (pre ++ [v]) = len pre + 1).
    { intros v. unfold len. rewrite length_app. simpl. lia. }
    destruct b; cbn [free_pos scatter count_free] in *.
    + specialize (IH (pre ++ [SNull]) vpre c c' Hc Hc').
      rewrite Hpre, <- !(assoc_L (++)) in IH. exact IH.
    + destruct c as [|v c]; [done|]. destruct c' as [|v' c']; [done|].
      injection Hc as Hc. injection Hc' as Hc'.
      cbn [put_loop]. unfold ind_throw.
      assert (Hlen : len (pre ++ v :: scatter m c) = len pre + len (scatter m c) + 1).
      { unfold len. rewrite length_app. simpl. lia. }
      destruct (Z.ltb_spec (len pre) 0); [unfold len in *; lia|].
      destruct (Z.gtb_spec (len pre) (len (pre ++ v :: scatter m c) - 1));
        [unfold len in *; lia|].
      simpl. rewrite arr_set_in_range by (unfold len in *; lia).
      unfold len at 1. rewrite Nat2Z.id.
      rewrite list_lookup_middle by done. simpl.
      rewrite insert_app_r_alt by done. rewrite Nat.sub_diag. simpl.
      specialize (IH (pre ++ [v']) (vpre ++ [v']) c c' Hc Hc').
      rewrite Hpre, <- !(assoc_L (++)) in IH. simpl in IH.
      rewrite length_app in IH. simpl in IH. exact IH.
Qed.

Lemma put_scatter m c c' :
  length c = count_free m → length c' = count_free m →
  put (scatter m c) (free_pos m 0) (Some c') = Ok (scatter m c').
Proof.
  intros Hc Hc'. unfold put.
  pose proof (put_loop_scatter m [] [] c c' Hc Hc') as H.
  change (len (@nil slot)) with 0 in H. simpl in H.
  rewrite free_pos_length, Hc'.
  destruct (Nat.eqb_spec (count_free m) 1) as [H1|H1].
  - (* one free dimension: the broadcasting branch writes the same value *)
    revert H. pose proof (free_pos_length m 0) as Hf. rewrite H1 in Hf.
    destruct (free_pos m 0) as [|k [|? ?]]; try done.
  - by rewrite Nat.eqb_refl.
Qed.


(** ** The number of sub-arrays *)

Lemma foldl_mul a l : foldl Z.mul a l = a * product l.
Proof.
  revert a. induction l as [|s l IH]; intros a; simpl; [lia|].
  rewrite IH. unfold product. lia.
Qed.

Lemma numel_product shape : shape ≠ [] → numel shape = product shape.
Proof.
  destruct shape as [|s l]; [done|]. intros _. unfold numel.
  rewrite foldl_mul. lia.
Qed.

Lemma product_split m l :
  length m = length l →
  product l = product (select_stacked m l) * product (select_free m l).
Proof.
  revert l. induction m as [|b m IH]; intros [|s l] Hl; try done.
  injection Hl as Hl. specialize (IH l Hl). unfold product in *.
  destruct b; simpl; rewrite IH; lia.
Qed.

Lemma product_nonzero l : product l ≠ 0 → Forall (λ s, s ≠ 0) l.
Proof.
  induction l as [|s l IH]; intros H; constructor; unfold product in *; simpl in H.
  - lia.
  - apply IH. lia.
Qed.

Lemma product_positive l : Forall (λ s, 0 < s) l → 0 < product l.
Proof. induction 1; unfold product in *; simpl; lia. Qed.

Lemma extents_positive l :
  Forall (λ s, 0 ≤ s) l → product l ≠ 0 → Forall (λ s, 0 < s) l.
Proof.
  intros H0 Hp. apply product_nonzero in Hp.
  rewrite Forall_forall in H0, Hp |- *. intros s Hs.
  specialize (H0 s Hs). specialize (Hp s Hs). lia.
Qed.

Lemma select_free_Forall {A} (P : A → Prop) m l :
  Forall P l → Forall P (select_free m l).
Proof.
  intros H. revert m. induction H as [|a l Ha _ IH]; intros [|[] m]; simpl; auto.
Qed.

Lemma Qc_of_Z_nonzero s : s ≠ 0 → Qc_of_Z s ≠ 0%Qc.
Proof. intros Hs H. apply Hs. apply Z2Qc_inj. by rewrite H, Z2Qc_inj_0. Qed.

Lemma num_div_fold ss q :
  Forall (λ s, s ≠ 0) ss →
  foldl num_div (Fin q) ss = Fin (q / Qc_of_Z (product ss))%Qc.
Proof.
  intros H. revert q. induction H as [|s ss Hs _ IH]; intros q.
  - simpl. f_equal. unfold product. simpl. rewrite Z2Qc_inj_1.
    unfold Qcdiv. change (/ 1)%Qc with 1%Qc. ring.
  - cbn [foldl]. unfold num_div at 2.
    destruct (Z.eqb_spec s 0); [done|]. rewrite IH. f_equal.
    unfold product. simpl. rewrite Z2Qc_inj_mul. unfold Qcdiv.
    rewrite Qcinv_mult_distr. ring.
Qed.

Lemma num_div_exact a b :
  a ≠ 0 → (Qc_of_Z (a * b) / Qc_of_Z a)%Qc = Qc_of_Z b.
Proof.
  intros Ha. rewrite Z2Qc_inj_mul. unfold Qcdiv.
  rewrite (Qcmult_comm (Qc_of_Z a)), <- Qcmult_assoc.
  rewrite Qcmult_inv_r by by apply Qc_of_Z_nonzero. ring.
Qed.

Lemma initial_N_value shape D :
  StronglySorted Z.lt D → Forall (λ d, 0 ≤ d < len shape) D →
  numel shape ≠ 0 →
  initial_N shape D = num_of_Z (product (free_shape D shape)).
Proof.
  intros HS HD Hn. unfold initial_N, free_shape, stack_mask.
  assert (Hne : shape ≠ []) by (intros ->; done).
  rewrite numel_product in Hn |- * by done.
  rewrite <- (foldl_fmap num_div_opt _ D (arr_get shape)).
  pose proof (stacked_reads shape [] D HS) as Hr.
  change (len (@nil Z)) with 0 in Hr. simpl in Hr.
  change (λ d, arr_get shape d) with (@arr_get Z shape) in Hr.
  rewrite Hr by (eapply Forall_impl; [exact HD|]; simpl; lia).
  rewrite foldl_fmap. change (λ a b, num_div_opt a (Some b)) with num_div.
  set (m := mask_from D 0 (length shape)) in *.
  assert (Hm : length m = length shape) by apply mask_from_length.
  pose proof (product_split m shape Hm) as Hsplit.
  unfold num_of_Z. rewrite num_div_fold; cycle 1.
  { apply product_nonzero. lia. }
  f_equal. rewrite Hsplit. apply num_div_exact. lia.
Qed.

(** ** The state of an iterator *)

Lemma valid_dims_normalized shape ds :
  valid_dims shape ds →
  StronglySorted Z.lt (norm (len shape) <$> ds) ∧
  Forall (λ d, 0 ≤ d < len shape) (norm (len shape) <$> ds).
Proof.
  intros (_ & Hr & HS). split.
  - apply Sorted_StronglySorted; [|done]. intros a b c. lia.
  - apply Forall_fmap. eapply Forall_impl; [exact Hr|]. intros d Hd.
    simpl. by apply norm_range.
Qed.

Lemma setup_spec x ds w :
  valid_dims (nd_shape x) ds →
  setup x ds w = Ok (initial_state x (norm (len (nd_shape x)) <$> ds) w).
Proof.
  intros Hv. pose proof (valid_dims_normalized _ _ Hv) as [HSS HD].
  destruct Hv as (Hlen & Hr & HS). unfold setup.
  destruct (Z.leb_spec (len (nd_shape x)) (len ds)); [unfold len in *; lia|].
  rewrite normalize_dims_valid by (done || unfold len in *; lia). simpl.
  set (D := norm (len (nd_shape x)) <$> ds) in *.
  destruct (sorted_checks D HS) as [-> ->]. simpl.
  rewrite (free_indices_spec _ D 0 0);
    [|done|simpl; eapply Forall_impl; [exact HD|]; simpl; lia].
  change (drop 0 D) with D. fold (stack_mask D (length (nd_shape x))).
  set (m := stack_mask D (length (nd_shape x))).
  assert (Hm : length m = length (nd_shape x)) by apply mask_from_length.
  pose proof (take_free m [] (nd_shape x) Hm) as Ht.
  change (len (@nil Z)) with 0 in Ht. simpl in Ht. rewrite Ht. simpl.
  rewrite mark_zeros by done. fold m.
  pose proof (take_free m [] (scatter m (zeros (count_free m)))) as Ht'.
  change (len (@nil slot)) with 0 in Ht'. simpl in Ht'.
  rewrite Ht' by by rewrite scatter_length. simpl.
  rewrite select_free_scatter by (unfold zeros; by rewrite length_replicate).
  unfold initial_state, cursor_state, origin, initial_N. fold m.
  unfold zeros. by rewrite fmap_replicate.
Qed.

Lemma setup_inv x ds w it :
  setup x ds w = Ok it → valid_dims (nd_shape x) ds.
Proof.
  unfold setup.
  destruct (Z.leb_spec (len (nd_shape x)) (len ds)); [done|].
  intros (D & HD & H1)%bind_Ok.
  apply normalize_dims_inv in HD as [Hr ->]; [|unfold len in *; lia].
  apply bind_Ok in H1 as ([] & Hasc & H2).
  apply bind_Ok in H2 as ([] & Huniq & _).
  split; [unfold len in *; lia|]. split; [done|]. by apply checks_sorted.
Qed.


(** ** The odometer *)

Lemma succ_coord_snoc sh c s x :
  length sh = length c →
  succ_coord (sh ++ [s]) (c ++ [x])
  = let j := Z.rem (x + 1) s in
    if 0 <? j then (c ++ [j], false)
    else ((succ_coord sh c).1 ++ [j], (succ_coord sh c).2).
Proof.
  revert c. induction sh as [|s0 sh IH]; intros [|x0 c] Hl; try done.
  - simpl. by destruct (0 <? Z.rem (x + 1) s).
  - injection Hl as Hl. cbn [app succ_coord]. rewrite (IH c Hl). cbn zeta.
    destruct (0 <? Z.rem (x + 1) s); [done|].
    destruct (succ_coord sh c) as [c' []]; done.
Qed.

Lemma succ_coord_length sh c :
  length sh = length c → length (succ_coord sh c).1 = length c.
Proof.
  revert c. induction sh as [|s sh IH]; intros [|x c] Hl; try done.
  injection Hl as Hl. specialize (IH c Hl). simpl.
  destruct (succ_coord sh c) as [c' []]; simpl in *; by rewrite IH.
Qed.

Lemma rem_succ x s :
  0 ≤ x < s → Z.rem (x + 1) s = if x + 1 =? s then 0 else x + 1.
Proof.
  intros H. destruct (Z.eqb_spec (x + 1) s) as [->|].
  - apply Z.rem_same. lia.
  - apply Z.rem_small. lia.
Qed.

Lemma succ_coord_bounds sh c :
  in_bounds sh c → in_bounds sh (succ_coord sh c).1.
Proof.
  unfold in_bounds. intros H. induction H as [|x s c sh Hx _ IH]; simpl.
  - constructor.
  - destruct (succ_coord sh c) as [c' []]; simpl in *.
    + constructor; [|done]. rewrite rem_succ by done.
      destruct (Z.eqb_spec (x + 1) s); lia.
    + by constructor.
Qed.

(** The loop of [nextCartesianIndex] computes the successor. *)
Lemma carry_loop_spec c : ∀ sh sh2 c2,
  length sh = length c → Forall (λ s, s ≠ 0) sh →
  carry_loop (sh ++ sh2) (SNum <$> (c ++ c2)) (length c)
  = SNum <$> ((succ_coord sh c).1 ++ c2).
Proof.
  induction c as [|x c IH] using rev_ind; intros sh sh2 c2 Hl Hnz.
  - by destruct sh.
  - destruct sh as [|s sh _] using rev_ind.
    { rewrite length_app in Hl. simpl in Hl. lia. }
    rewrite !length_app in Hl. simpl in Hl.
    assert (Hl' : length sh = length c) by lia.
    apply Forall_app in Hnz as [Hnz Hs]. apply Forall_inv in Hs.
    rewrite length_app. simpl. rewrite Nat.add_1_r. cbn [carry_loop].
    rewrite <- !(assoc_L (++)). simpl.
    rewrite list_lookup_fmap.
    rewrite (list_lookup_middle c c2 x (length c) eq_refl).
    rewrite (list_lookup_middle sh sh2 s (length c)) by (symmetry; exact Hl').
    simpl. destruct (Z.eqb_spec s 0); [done|].
    rewrite arr_set_in_range; cycle 1.
    { unfold len. rewrite length_fmap, length_app. simpl. lia. }
    rewrite Nat2Z.id. rewrite <- (list_fmap_insert SNum).
    rewrite insert_app_r_alt by done. rewrite Nat.sub_diag. simpl.
    rewrite succ_coord_snoc by done. cbn zeta.
    destruct (0 <? Z.rem (x + 1) s) eqn:Hj.
    + simpl. by rewrite <- (assoc_L (++)).
    + simpl. rewrite (IH sh (s :: sh2) (Z.rem (x + 1) s :: c2) Hl' Hnz).
      by rewrite <- (assoc_L (++)).
Qed.

Lemma nextCartesianIndex_spec sh c :
  sh ≠ [] → length sh = length c → Forall (λ s, s ≠ 0) sh →
  nextCartesianIndex sh (SNum <$> c) (-1) = Some (SNum <$> (succ_coord sh c).1).
Proof.
  intros Hne Hl Hnz. unfold nextCartesianIndex.
  assert (0 < len sh) by (unfold len; destruct sh; [done|simpl; lia]).
  change (-1 <? 0) with true. cbn iota.
  destruct (Z.ltb_spec (-1 + len sh) 0); [lia|].
  destruct (Z.geb_spec (-1 + len sh) (len sh)); [lia|]. cbn [orb].
  replace (S (Z.to_nat (-1 + len sh))) with (length c) by (unfold len in *; lia).
  pose proof (carry_loop_spec c sh [] [] Hl Hnz) as H'.
  rewrite !app_nil_r in H'. by rewrite H'.
Qed.

(** ** Row-major enumeration *)

Lemma chain_lift s sh a c l e :
  chain sh c l e true →
  chain (s :: sh) (a :: c) ((a ::.) <$> l)
    (Z.rem (a + 1) s :: e) (negb (0 <? Z.rem (a + 1) s)).
Proof.
  revert c. induction l as [|c' l IH]; intros c; simpl.
  - by intros ->.
  - intros [-> Hc]. split; [done|]. by apply IH.
Qed.

Lemma chain_app sh c l e l2 e2 b :
  chain sh c l e false → chain sh e l2 e2 b → chain sh c (l ++ e :: l2) e2 b.
Proof.
  revert c. induction l as [|c' l IH]; intros c; simpl.
  - auto.
  - intros [-> Hc] H2. split; [done|]. by apply IH.
Qed.

Lemma chain_blocks s sh z l (k : nat) a :
  chain sh z l z true → 0 ≤ a → a + Z.of_nat (S k) = s →
  ∃ l', concat ((λ a, (a ::.) <$> (z :: l)) <$> seqZ a (Z.of_nat (S k)))
        = (a :: z) :: l'
      ∧ chain (s :: sh) (a :: z) l' (0 :: z) true.
Proof.
  intros Hc. revert a. induction k as [|k IH]; intros a Ha Hs.
  - exists ((a ::.) <$> l). split.
    + change (Z.of_nat 1) with 1. rewrite seqZ_cons by lia. simpl.
      by rewrite app_nil_r.
    + pose proof (chain_lift s sh a z l z Hc) as H.
      rewrite rem_succ in H by lia.
      destruct (Z.eqb_spec (a + 1) s); [done|lia].
  - destruct (IH (a + 1)) as (l' & Hl' & Hc'); [lia|lia|].
    exists (((a ::.) <$> l) ++ (a + 1 :: z) :: l'). split.
    + rewrite seqZ_cons by lia. cbn [fmap list_fmap concat].
      replace (Z.pred (Z.of_nat (S (S k)))) with (Z.of_nat (S k)) by lia.
      change (Z.succ a) with (a + 1).
      cbn [fmap list_fmap] in Hl'. rewrite Hl'. done.
    + eapply chain_app; [|exact Hc'].
      pose proof (chain_lift s sh a z l z Hc) as H.
      rewrite rem_succ in H by lia.
      destruct (Z.eqb_spec (a + 1) s); [lia|].
      destruct (Z.ltb_spec 0 (a + 1)); [done|lia].
Qed.

Lemma rowmajor_chain sh :
  Forall (λ s, 0 < s) sh →
  ∃ l, rowmajor sh = replicate (length sh) 0 :: l
     ∧ chain sh (replicate (length sh) 0) l (replicate (length sh) 0) true.
Proof.
  induction 1 as [|s sh Hs _ (l & Hl & Hc)].
  - by exists [].
  - destruct (chain_blocks s sh _ l (Z.to_nat (s - 1)) 0 Hc) as (l' & Hl' & Hc');
      [lia|lia|].
    exists l'. split; [|done].
    cbn [rowmajor]. rewrite Hl.
    replace s with (Z.of_nat (S (Z.to_nat (s - 1)))) at 1 by lia. done.
Qed.

Lemma blocks_length {A} (f : Z → list A) (n k : nat) a :
  (∀ a, length (f a) = n) →
  length (concat (f <$> seqZ a (Z.of_nat k))) = (k * n)%nat.
Proof.
  intros Hf. revert a. induction k as [|k IH]; intros a; [done|].
  rewrite seqZ_cons by lia. rewrite fmap_cons. cbn [concat].
  replace (Z.pred (Z.of_nat (S k))) with (Z.of_nat k) by lia.
  rewrite length_app, Hf, IH. lia.
Qed.

Lemma rowmajor_length sh :
  Forall (λ s, 0 ≤ s) sh → len (rowmajor sh) = product sh.
Proof.
  unfold len. induction 1 as [|s sh Hs _ IH]; [done|].
  cbn [rowmajor]. unfold product in *. cbn [foldr]. rewrite <- IH.
  replace s with (Z.of_nat (Z.to_nat s)) at 1 by lia.
  rewrite (blocks_length _ (length (rowmajor sh))).
  - lia.
  - intros a. by rewrite length_fmap.
Qed.




(** ** One call of [next] *)

Lemma ge_num_of_Z i T : ge_num i (num_of_Z T) = bool_decide (T ≤ i).
Proof.
  unfold ge_num, num_of_Z. simpl.
  destruct (Qle_bool (inject_Z T) (inject_Z i)) eqn:E.
  - apply Qle_bool_iff in E. rewrite <- Zle_Qle in E.
    by rewrite bool_decide_eq_true_2.
  - rewrite bool_decide_eq_false_2; [done|]. intros H.
    rewrite Zle_Qle, <- Qle_bool_iff in H. congruence.
Qed.

Lemma ge_num_succ i N : ge_num i N = true → ge_num (i + 1) N = true.
Proof.
  destruct N as [q| | |]; simpl; try done.
  rewrite !Qle_bool_iff. intros H. eapply Qle_trans; [exact H|].
  rewrite <- Zle_Qle. lia.
Qed.

Lemma in_bounds_length sh c : in_bounds sh c → length sh = length c.
Proof. intros H. symmetry. by eapply Forall2_length. Qed.

Lemma args2multislice_scatter m c :
  length c = count_free m →
  args2multislice (scatter m (SNum <$> c)) = Ok (scatter m (SNum <$> c)).
Proof.
  intros Hc. unfold args2multislice.
  assert (forallb multislice_arg (scatter m (SNum <$> c)) = true) as ->; [|done].
  revert c Hc. induction m as [|[] m IH]; intros c Hc; simpl in *; [done|auto|].
  destruct c as [|v c]; [done|]. simpl. apply IH. by injection Hc.
Qed.

Lemma slice_shape_scatter m shape c :
  length m = length shape → in_bounds (select_free m shape) c →
  slice_shape (scatter m (SNum <$> c)) shape = Ok (select_stacked m shape).
Proof.
  revert shape c. induction m as [|b m IH]; intros [|s shape] c Hm Hb; try done.
  injection Hm as Hm. destruct b; simpl in *.
  - by rewrite IH.
  - inversion Hb as [|v s' c' sh' Hv Hb']; subst.
    cbn [fmap list_fmap scatter slice_shape slice_dim].
    assert (Hv0 : (v <? 0) = false) by (apply Z.ltb_ge; lia).
    assert (Hvs : (v >=? s) = false) by (rewrite Z.geb_leb; apply Z.leb_gt; lia).
    rewrite Hv0. cbn zeta. rewrite Hv0, Hvs. simpl. by apply IH.
Qed.

Section cursor.
Variables (x : ndarray) (D : list Z) (w : bool).

Abbreviation shape := (nd_shape x).
Abbreviation m := (stack_mask D (length (nd_shape x))).
Abbreviation sh := (free_shape D (nd_shape x)).

Lemma mask_length : length m = length shape.
Proof. apply mask_from_length. Qed.

Lemma set_i_cursor N flg c i j :
  set_i (cursor_state x D w N flg c i) j = cursor_state x D w N flg c j.
Proof. done. Qed.

Lemma next_done N flg c i :
  flg || ge_num (i + 1) N = true →
  next (cursor_state x D w N flg c i)
  = Ok (mk_result None true, cursor_state x D w N flg c (i + 1)).
Proof. intros H. unfold next. simpl. by rewrite H. Qed.

Lemma next_active T c i :
  sh ≠ [] → Forall (λ s, 0 < s) sh → in_bounds sh c → i + 1 < T →
  next (cursor_state x D w (num_of_Z T) false c i)
  = Ok (view_at x D w c,
        cursor_state x D w (num_of_Z T) false (succ_coord sh c).1 (i + 1)).
Proof.
  intros Hne Hpos Hb Hi. unfold next. rewrite set_i_cursor.
  unfold cursor_state, set_cursor. cbn zeta.
  cbn [it_FLG it_i it_N it_idx it_sh it_ibuf it_indices it_x it_writable it_dims].
  rewrite ge_num_of_Z, bool_decide_eq_false_2 by lia. cbn [orb].
  pose proof (in_bounds_length _ _ Hb) as Hl.
  assert (Hc : length (SNum <$> c) = count_free m).
  { rewrite length_fmap, <- Hl. apply select_free_length, mask_length. }
  rewrite args2multislice_scatter by by rewrite length_fmap in Hc. simpl.
  fold sh. rewrite nextCartesianIndex_spec; [|done..|]; cycle 1.
  { eapply Forall_impl; [exact Hpos|]. simpl. lia. }
  rewrite put_scatter; [|done|]; cycle 1.
  { rewrite length_fmap, succ_coord_length by done. by rewrite length_fmap in Hc. }
  simpl. unfold slice.
  rewrite scatter_length, mask_length, Nat.eqb_refl. simpl.
  rewrite slice_shape_scatter by (done || apply mask_length). done.
Qed.
End cursor.

(** ** Sequences of calls *)

Lemma bind_Ok_l {A B} (a : A) (f : A → res B) : Ok a ≫= f = f a.
Proof. done. Qed.

Lemma select_lengths {A} m (l : list A) :
  length m = length l →
  (length (select_stacked m l) + length (select_free m l))%nat = length l.
Proof.
  revert l. induction m as [|b m IH]; intros [|a l] Hl; try done.
  injection Hl as Hl. specialize (IH l Hl). destruct b; simpl; lia.
Qed.

Lemma count_views_run n : ∀ it rs it' r it'',
  run (replicate n CallNext) it = Ok (rs, it') →
  Forall (λ r, r_done r = false) rs →
  next it' = Ok (r, it'') → r_done r = true →
  ∀ fuel, (n < fuel)%nat → count_views fuel it = Some n.
Proof.
  induction n as [|n IH]; intros it rs it' r it'' Hrun Hrs Hnext Hdone fuel Hfuel.
  - injection Hrun as <- <-. destruct fuel as [|fuel]; [lia|].
    simpl. by rewrite Hnext, Hdone.
  - destruct fuel as [|fuel]; [lia|]. cbn [replicate run step] in Hrun.
    apply bind_Ok in Hrun as ([r1 it1] & Hn1 & Hrun).
    apply bind_Ok in Hrun as ([rs1 it2] & Hrun1 & [= <- <-]).
    apply Forall_cons in Hrs as [Hr1 Hrs1].
    cbn [count_views]. rewrite Hn1, Hr1.
    by rewrite (IH it1 rs1 it2 r it'' Hrun1 Hrs1 Hnext Hdone fuel) by lia.
Qed.

Section iteration.
Variables (x : ndarray) (D : list Z) (w : bool).
Hypothesis Hok : ndarray_ok x.
Hypothesis HS : StronglySorted Z.lt D.
Hypothesis HD : Forall (λ d, 0 ≤ d < len (nd_shape x)) D.
Hypothesis Hlen : (length D < length (nd_shape x))%nat.

Abbreviation shape := (nd_shape x).
Abbreviation m := (stack_mask D (length (nd_shape x))).
Abbreviation sh := (free_shape D (nd_shape x)).
Abbreviation N := (initial_N (nd_shape x) D).

Lemma stacked_length : length (select_stacked m shape) = length D.
Proof.
  pose proof (stacked_reads shape [] D HS) as H.
  change (len (@nil Z)) with 0 in H. simpl in H.
  assert (Hr : Forall (λ d, 0 ≤ d < 0 + len shape) D).
  { eapply Forall_impl; [exact HD|]. simpl. lia. }
  apply (f_equal length) in H; [|done]. by rewrite !length_fmap in H.
Qed.

Lemma free_length : length sh = (length shape - length D)%nat.
Proof.
  pose proof (select_lengths m shape (mask_length x D)) as H.
  rewrite stacked_length in H. unfold free_shape. lia.
Qed.

Lemma free_nonempty : sh ≠ [].
Proof. intros H. pose proof free_length as Hl. rewrite H in Hl. simpl in Hl. lia. Qed.

Lemma shape_nonempty : shape ≠ [].
Proof. intros H. rewrite H in Hlen. simpl in Hlen. lia. Qed.

Lemma free_positive : numel shape ≠ 0 → Forall (λ s, 0 < s) sh.
Proof.
  intros Hn. rewrite numel_product in Hn by apply shape_nonempty.
  apply select_free_Forall. by apply extents_positive.
Qed.

Lemma N_value : numel shape ≠ 0 → N = num_of_Z (product sh).
Proof. by apply initial_N_value. Qed.


Lemma origin_length : length (origin D (length shape)) = length sh.
Proof.
  unfold origin, free_shape. rewrite length_replicate.
  symmetry. apply select_free_length, mask_length.
Qed.

Lemma origin_eq : origin D (length shape) = replicate (length sh) 0.
Proof.
  unfold origin. f_equal. unfold free_shape.
  symmetry. apply select_free_length, mask_length.
Qed.

Lemma origin_in_bounds : numel shape ≠ 0 → in_bounds sh (origin D (length shape)).
Proof.
  intros Hn. rewrite origin_eq. pose proof (free_positive Hn) as Hp.
  unfold in_bounds. induction Hp; simpl; constructor; [lia|done].
Qed.

(** *** The invariant of the closure variables *)




(** *** Walking the row-major enumeration *)

Lemma run_chain l : ∀ c i e b,
  numel shape ≠ 0 → chain sh c l e b → in_bounds sh c →
  i + 1 + len l < product sh →
  run (replicate (S (length l)) CallNext) (cursor_state x D w N false c i)
  = Ok (view_at x D w <$> (c :: l), cursor_state x D w N false e (i + 1 + len l)).
Proof.
  induction l as [|c' l IH]; intros c i e b Hn Hch Hb Hi;
    cbn [length]; rewrite replicate_S; cbn [run step]; rewrite (N_value Hn);
    (rewrite next_active;
      [|apply free_nonempty|by apply free_positive|done|unfold len in *; lia]);
    rewrite bind_Ok_l; cbn beta iota.
  - simpl in Hch. rewrite Hch. simpl. do 3 f_equal. unfold len. simpl. lia.
  - destruct Hch as [Hc' Hch]. rewrite Hc'. cbn [fst].
    pose proof (succ_coord_bounds _ _ Hb) as Hb'. rewrite Hc' in Hb'.
    rewrite <- (N_value Hn).
    assert (Hlen' : len (c' :: l) = len l + 1) by (unfold len; simpl; lia).
    rewrite (IH c' (i + 1) e b Hn Hch Hb') by lia. simpl.
    do 3 f_equal. lia.
Qed.

Lemma run_rowmajor :
  numel shape ≠ 0 →
  run (replicate (Z.to_nat (product sh)) CallNext) (initial_state x D w)
  = Ok (view_at x D w <$> rowmajor sh,
        cursor_state x D w N false (origin D (length shape)) (product sh - 1)).
Proof.
  intros Hn. pose proof (free_positive Hn) as Hp.
  destruct (rowmajor_chain sh Hp) as (l & Hl & Hch).
  assert (Hlen' : len (rowmajor sh) = product sh).
  { apply rowmajor_length. eapply Forall_impl; [exact Hp|]. simpl. lia. }
  rewrite Hl in Hlen' |- *. rewrite <- origin_eq in *.
  assert (Hll : len l + 1 = product sh) by (unfold len in *; simpl in *; lia).
  replace (Z.to_nat (product sh)) with (S (length l)) by (unfold len in *; lia).
  unfold initial_state.
  destruct (Z.eqb_spec (numel shape) 0); [done|].
  rewrite (run_chain l _ (-1) _ true Hn Hch); [|by apply origin_in_bounds|lia].
  do 3 f_equal. lia.
Qed.

Lemma count_views_initial fuel :
  (total_steps x D) < Z.of_nat fuel →
  count_views fuel (initial_state x D w) = Some (Z.to_nat (total_steps x D)).
Proof.
  unfold total_steps. destruct (Z.eqb_spec (numel shape) 0) as [Hz|Hn]; intros Hf.
  - destruct fuel as [|fuel]; [lia|]. unfold initial_state. rewrite Hz.
    change (0 =? 0) with true. cbn [count_views].
    rewrite next_done by done. done.
  - eapply (count_views_run _ _ _ _ _ _ (run_rowmajor Hn)).
    + apply Forall_fmap, Forall_true. done.
    + apply next_done. rewrite (N_value Hn), ge_num_of_Z.
      rewrite bool_decide_eq_true_2 by lia. done.
    + done.
    + pose proof (product_positive _ (free_positive Hn)). lia.
Qed.
End iteration.


(** ** Construction *)

Lemma copy_ints ds : copy (JArr (JInt <$> ds)) = ds.
Proof.
  unfold copy. induction ds as [|d ds IH]; [done|].
  rewrite fmap_cons. cbn [omap list_omap]. by rewrite IH.
Qed.

Lemma isIntegerArray_ints ds :
  isIntegerArray (JArr (JInt <$> ds)) = negb (length ds =? 0)%nat.
Proof.
  unfold isIntegerArray. rewrite length_fmap.
  assert (forallb isInteger (JInt <$> ds) = true) as ->.
  { induction ds; simpl; auto. }
  by rewrite andb_true_r.
Qed.

Lemma isIntegerArray_inv dims :
  isIntegerArray dims = true → ∃ ds, dims = JArr (JInt <$> ds) ∧ ds ≠ [].
Proof.
  destruct dims as [| | | | | |elems| | |]; try done. simpl.
  intros [Hne Hall]%andb_true_iff.
  assert (∃ ds, elems = JInt <$> ds) as [ds ->].
  { clear Hne. induction elems as [|e elems IH]; [by exists []|].
    simpl in Hall. apply andb_true_iff in Hall as [He Hall].
    destruct (IH Hall) as [ds ->]. destruct e; try done. by exists (z :: ds). }
  exists ds. split; [done|]. by destruct ds.
Qed.

Lemma nditerStacks_ints x ds options :
  ds ≠ [] →
  nditerStacks (JNd x) (JArr (JInt <$> ds)) options
  = check_options x options ≫= setup x ds.
Proof.
  intros Hne. unfold nditerStacks. rewrite isIntegerArray_ints, copy_ints.
  by destruct ds.
Qed.

Lemma nditerStacks_inv x ds options it :
  nditerStacks (JNd x) (JArr (JInt <$> ds)) options = Ok it →
  ∃ w, ds ≠ [] ∧ check_options x options = Ok w ∧
       valid_dims (nd_shape x) ds ∧
       it = initial_state x (norm (len (nd_shape x)) <$> ds) w.
Proof.
  intros H. assert (Hne : ds ≠ []).
  { intros ->. by cbv in H. }
  rewrite nditerStacks_ints in H by done.
  apply bind_Ok in H as (w & Hw & Hs).
  pose proof (setup_inv _ _ _ _ Hs) as Hv.
  rewrite setup_spec in Hs by done. injection Hs as <-. by exists w.
Qed.


(** What the iteration lemmas need to know about an accepted list. *)
Lemma valid_dims_facts shape ds :
  valid_dims shape ds →
  let D := norm (len shape) <$> ds in
  StronglySorted Z.lt D ∧ Forall (λ d, 0 ≤ d < len shape) D ∧
  (length D < length shape)%nat.
Proof.
  intros Hv. destruct (valid_dims_normalized _ _ Hv) as [HS HD].
  destruct Hv as (Hlen & _). simpl. rewrite length_fmap. done.
Qed.

(** * Properties of the iterator *)




Example rowmajor_2_3 :
  rowmajor [2; 3] = [[0; 0]; [0; 1]; [0; 2]; [1; 0]; [1; 1]; [1; 2]].
Proof. reflexivity. Qed.

(** The README example: a [2x2x2] array with stacked dimensions [[1, 2]]
    gives the two matrices at index [0] and [1] along dimension [0], then
    [done: true]. *)
Example readme_example :
  ∃ it rs it',
    nditerStacks (JNd (mk_ndarray [2; 2; 2] false)) (JArr [JInt 1; JInt 2]) None = Ok it ∧
    run [CallNext; CallNext; CallNext] it = Ok (rs, it') ∧
    rs = [view_at (mk_ndarray [2; 2; 2] false) [1; 2] false [0];
          view_at (mk_ndarray [2; 2; 2] false) [1; 2] false [1];
          mk_result None true] ∧
    slice_spec [1; 2] 3 [1] = [SNum 1; SNull; SNull].
Proof. do 3 eexists. repeat split; reflexivity. Qed.

(** An empty extent in a stacked dimension: [N] is [0 / 0], the flag [FLG]
    is set, and the first call of [next] returns [done: true]. *)
Example empty_stacked_extent :
  ∃ it,
    nditerStacks (JNd (mk_ndarray [2; 0] false)) (JArr [JInt 1]) None = Ok it ∧
    it_N it = NaN ∧ it_FLG it = true ∧ count_views 3 it = Some 0%nat.
Proof. eexists. repeat split; reflexivity. Qed.








(** ** Termination *)

Lemma finished_next it :
  finished it = true →
  next it = Ok (mk_result None true, set_i it (it_i it + 1)) ∧
  finished (set_i it (it_i it + 1)) = true.
Proof.
  unfold finished. intros H.
  assert (H' : it_FLG it || ge_num (it_i it + 1) (it_N it) = true).
  { apply orb_true_iff in H as [->|H]; [done|].
    rewrite (ge_num_succ _ _ H). apply orb_true_r. }
  split; [|exact H']. unfold next. cbn [set_i it_FLG it_i it_N]. by rewrite H'.
Qed.

Lemma next_done_finished it r it1 :
  next it = Ok (r, it1) → r_done r = true → finished it1 = true.
Proof.
  unfold next. cbn [set_i it_FLG it_i it_N].
  destruct (it_FLG it || ge_num (it_i it + 1) (it_N it)) eqn:E.
  - intros [= <- <-] _. exact E.
  - intros (s & _ & H)%bind_Ok. apply bind_Ok in H as (idx & _ & H).
    apply bind_Ok in H as (v & _ & [= <- _]). done.
Qed.

Lemma finished_run cs : ∀ it,
  finished it = true →
  ∃ rs it', run cs it = Ok (rs, it') ∧
    Forall2 (λ c r, r_done r = true ∧ (c = CallNext → r_value r = None)) cs rs.
Proof.
  induction cs as [|c cs IH]; intros it Hf.
  - exists [], it. split; [done|constructor].
  - destruct c as [|value].
    + destruct (finished_next it Hf) as [Hn Hf'].
      destruct (IH _ Hf') as (rs & it' & Hrun & Hall).
      eexists (_ :: rs), it'. cbn [run step]. rewrite Hn. simpl. rewrite Hrun.
      split; [done|]. by constructor.
    + destruct (IH (set_FLG it)) as (rs & it' & Hrun & Hall); [done|].
      eexists (_ :: rs), it'. cbn [run step end_]. simpl. rewrite Hrun.
      split; [done|]. by constructor.
Qed.

(** C7: [return()] never throws and always answers [done: true], also on a
    fresh iterator and when repeated; and once any call has answered
    [done: true], every later call answers [done: true], the [next()] calls
    among them without a value. *)
Theorem done_is_final (it : iterator) :
  (∀ value, ∃ it',
     step (CallReturn value) it = Ok (mk_result (VPass <$> value) true, it')) ∧
  (∀ c r it1 cs,
     step c it = Ok (r, it1) → r_done r = true →
     ∃ rs it2, run cs it1 = Ok (rs, it2) ∧
       Forall2 (λ c r, r_done r = true ∧ (c = CallNext → r_value r = None)) cs rs).
Proof.
  split.
  - intros value. by eexists.
  - intros c r it1 cs Hstep Hdone. apply finished_run.
    destruct c as [|value].
    + by eapply next_done_finished.
    + by injection Hstep as <- <-.
Qed.

Lemma done_is_final_witness :
  ∃ it it1 rs it2,
    nditerStacks (JNd (mk_ndarray [2; 2; 2] false)) (JArr [JInt 1; JInt 2]) None = Ok it ∧
    step (CallReturn None) it = Ok (mk_result None true, it1) ∧
    run [CallNext; CallReturn (Some JNull); CallNext] it1 = Ok (rs, it2) ∧
    Forall2 (λ c r, r_done r = true ∧ (c = CallNext → r_value r = None))
      [CallNext; CallReturn (Some JNull); CallNext] rs.
Proof.
  exists (initial_state (mk_ndarray [2; 2; 2] false) [1; 2] false). eexists.
  destruct (proj2 (done_is_final (initial_state (mk_ndarray [2; 2; 2] false) [1; 2] false))
              (CallReturn None) _ _
              [CallNext; CallReturn (Some JNull); CallNext] eq_refl eq_refl)
    as (rs & it2 & Hrun & Hall).
  exists rs, it2. split; [reflexivity|]. split; [reflexivity|]. split; [exact Hrun|exact Hall].
Defined.

(** ** The counter *)




(** ** Options *)

Lemma initial_state_writable x D w : it_writable (initial_state x D w) = w.
Proof. done. Qed.



(** ** The re-iteration factory *)

Lemma norm_nonneg n d : 0 ≤ d → norm n d = d.
Proof. intros H. unfold norm. destruct (Z.ltb_spec d 0); [lia|done]. Qed.

Lemma norm_fixed n D : Forall (λ d, 0 ≤ d < n) D → norm n <$> D = D.
Proof.
  induction 1 as [|d D Hd _ IH]; [done|].
  rewrite fmap_cons, IH, norm_nonneg by lia. done.
Qed.


(** C3 (code defect): [factory] passes the internal object [opts], whose only
    key is [writable], as the options argument, where a [readonly] key is
    expected; the new iterator therefore falls back to read-only views.  On a
    writable [2x2x2] array with dimensions [[1, 2]] and [readonly: false] the
    original iterator hands out writable views, the iterator returned by
    [factory] read-only ones. *)
Theorem factory_loses_writable :
  ∃ it it' r1 it1 r2 it2,
    nditerStacks (JNd (mk_ndarray [2; 2; 2] false)) (JArr [JInt 1; JInt 2])
      (Some (JObj [("readonly"%string, JBool false)])) = Ok it ∧
    factory it = Ok it' ∧
    it_x it' = it_x it ∧ it_dims it' = it_dims it ∧ it_i it' = -1 ∧
    it_writable it = true ∧ it_writable it' = false ∧
    next it = Ok (r1, it1) ∧ next it' = Ok (r2, it2) ∧
    (∃ v, r_value r1 = Some (VView v) ∧ v_writable v = true) ∧
    (∃ v, r_value r2 = Some (VView v) ∧ v_writable v = false).
Proof.
  do 6 eexists. split; [reflexivity|]. split; [reflexivity|].
  do 5 (split; [reflexivity|]). split; [reflexivity|]. split; [reflexivity|].
  split; eexists; split; reflexivity.
Qed.

(** ** The order of the checks *)

Lemma setup_insufficient x ds w :
  len (nd_shape x) ≤ len ds → setup x ds w = Throw TypeError_insufficient_dimensions.
Proof. intros H. unfold setup. by destruct (Z.leb_spec (len (nd_shape x)) (len ds)); [|lia]. Qed.

Lemma setup_out_of_range x ds w :
  len ds < len (nd_shape x) →
  ¬ Forall (λ d, - len (nd_shape x) ≤ d < len (nd_shape x)) ds →
  setup x ds w = Throw RangeError_dimension_index.
Proof.
  intros H Hr. unfold setup.
  destruct (Z.leb_spec (len (nd_shape x)) (len ds)); [lia|].
  rewrite normalize_dims_throw; [done| |done]. unfold len in *. lia.
Qed.

Lemma check_ascending_spec D :
  (Sorted Z.le D ∧ check_ascending D = Ok ()) ∨
  (¬ Sorted Z.le D ∧ check_ascending D = Throw Error_not_ascending).
Proof.
  induction D as [|a [|b D] IH].
  - left. split; [constructor|done].
  - left. split; [repeat constructor|done].
  - change (check_ascending (a :: b :: D))
      with (if a >? b then Throw Error_not_ascending else check_ascending (b :: D)).
    destruct (Z.gtb_spec a b).
    + right. split; [|done]. intros HS. apply Sorted_inv in HS as [_ Hhd].
      apply HdRel_inv in Hhd. lia.
    + destruct IH as [[HS ->]|[HS ->]]; [left|right]; (split; [|done]).
      * constructor; [done|]. constructor. lia.
      * intros HS'. apply HS. by apply Sorted_inv in HS' as [? _].
Qed.

Lemma check_unique_spec D :
  check_unique D = Ok () ∨ check_unique D = Throw Error_not_unique.
Proof.
  induction D as [|a [|b D] IH]; [by left..|].
  change (check_unique (a :: b :: D))
    with (if b =? a then Throw Error_not_unique else check_unique (b :: D)).
  destruct (b =? a); [by right|exact IH].
Qed.

Lemma setup_order_errors x ds w :
  len ds < len (nd_shape x) →
  Forall (λ d, - len (nd_shape x) ≤ d < len (nd_shape x)) ds →
  let D := norm (len (nd_shape x)) <$> ds in
  (¬ Sorted Z.le D → setup x ds w = Throw Error_not_ascending) ∧
  (Sorted Z.le D → ¬ Sorted Z.lt D → setup x ds w = Throw Error_not_unique).
Proof.
  intros Hlen Hr D. unfold setup.
  destruct (Z.leb_spec (len (nd_shape x)) (len ds)); [lia|].
  rewrite normalize_dims_valid by (done || unfold len in *; lia). simpl. fold D.
  destruct (check_ascending_spec D) as [[HS Ha]|[HS Ha]]; rewrite Ha; simpl.
  - split; [done|]. intros _ Hlt.
    destruct (check_unique_spec D) as [Hu|Hu]; rewrite Hu; [|done].
    destruct Hlt. by apply checks_sorted.
  - split; [done|]. intros HS'. done.
Qed.




(** ** Ordering and uniqueness *)

(** C5 (as amended): a normalized list with a descent, that is one that is
    not in non-decreasing order, fails with the ordering error; a list in
    non-decreasing order that repeats a value, such as [[1, 1]], passes the
    ordering check and fails with the uniqueness error. *)
Theorem order_and_uniqueness_errors (x : ndarray) (ds : list Z)
    (options : option jsval) (w : bool) :
  ds ≠ [] → check_options x options = Ok w →
  (length ds < length (nd_shape x))%nat →
  Forall (λ d, - len (nd_shape x) ≤ d < len (nd_shape x)) ds →
  let D := norm (len (nd_shape x)) <$> ds in
  (¬ Sorted Z.le D →
   nditerStacks (JNd x) (JArr (JInt <$> ds)) options = Throw Error_not_ascending) ∧
  (Sorted Z.le D → ¬ Sorted Z.lt D →
   nditerStacks (JNd x) (JArr (JInt <$> ds)) options = Throw Error_not_unique).
Proof.
  intros Hne Hw Hlen Hr D. rewrite nditerStacks_ints, Hw by done. simpl.
  apply setup_order_errors; [unfold len; lia|done].
Qed.

Lemma order_and_uniqueness_errors_witness :
  nditerStacks (JNd (mk_ndarray [2; 2; 2] false)) (JArr [JInt 2; JInt 1]) None
  = Throw Error_not_ascending ∧
  nditerStacks (JNd (mk_ndarray [2; 2; 2] false)) (JArr [JInt 1; JInt (-2)]) None
  = Throw Error_not_unique.
Proof.
  split.
  - apply (proj1 (order_and_uniqueness_errors (mk_ndarray [2; 2; 2] false) [2; 1]
                    None false ltac:(done) eq_refl ltac:(simpl; lia) ltac:(decide_now))).
    decide_now.
  - apply (proj2 (order_and_uniqueness_errors (mk_ndarray [2; 2; 2] false) [1; -2]
                    None false ltac:(done) eq_refl ltac:(simpl; lia) ltac:(decide_now)));
      decide_now.
Defined.

(** C5 (as stated) fails: [[1, 1]] is not strictly ascending, and the error
    is the uniqueness error, not the ordering error. *)
Lemma equal_neighbours_not_ordering_error :
  ¬ Sorted Z.lt (norm 3 <$> [1; 1]) ∧
  nditerStacks (JNd (mk_ndarray [2; 2; 2] false)) (JArr [JInt 1; JInt 1]) None
  = Throw Error_not_unique ∧
  nditerStacks (JNd (mk_ndarray [2; 2; 2] false)) (JArr [JInt 1; JInt 1]) None
  ≠ Throw Error_not_ascending.
Proof. split; [decide_now|]. split; [reflexivity|discriminate]. Qed.

(** ** The empty dimension list *)

Lemma stack_mask_nil n : stack_mask [] n = replicate n false.
Proof.
  apply list_eq. intros p. rewrite mask_from_lookup.
  destruct (decide (p < n)%nat).
  - rewrite lookup_replicate_2 by done.
    by rewrite bool_decide_eq_false_2 by apply not_elem_of_nil.
  - symmetry. apply lookup_replicate_None. lia.
Qed.

Lemma select_free_none {A} (l : list A) : select_free (replicate (length l) false) l = l.
Proof. induction l as [|a l IH]; simpl; [done|by rewrite IH]. Qed.

Lemma scatter_none c : scatter (replicate (length c) false) c = c.
Proof. induction c as [|v c IH]; simpl; [done|by rewrite IH]. Qed.

Lemma free_shape_nil shape : free_shape [] shape = shape.
Proof. unfold free_shape. rewrite stack_mask_nil. apply select_free_none. Qed.

Lemma total_steps_nil x : nd_shape x ≠ [] → total_steps x [] = numel (nd_shape x).
Proof.
  intros Hne. unfold total_steps. rewrite free_shape_nil.
  destruct (Z.eqb_spec (numel (nd_shape x)) 0); [done|].
  by rewrite numel_product.
Qed.

(** C10 (as amended): an empty dimension list does not pass the argument
    check: [nditerStacks( x, [] )] throws the "second argument must be an
    array of integers" TypeError, with or without options.  The code after
    the argument checks, were it given the empty list for an array with at
    least one dimension, would treat every dimension as free and hand out
    [numel( x )] views in row-major order, each fixing every dimension to a
    single index. *)
Theorem empty_dims_rejected (x : ndarray) (options : option jsval) :
  nditerStacks (JNd x) (JArr []) options
  = Throw TypeError_second_argument_not_integer_array ∧
  (∀ w fuel,
     ndarray_ok x → nd_shape x ≠ [] → numel (nd_shape x) < Z.of_nat fuel →
     let it := initial_state x [] w in
     setup x [] w = Ok it ∧
     free_shape [] (nd_shape x) = nd_shape x ∧
     count_views fuel it = Some (Z.to_nat (numel (nd_shape x))) ∧
     (numel (nd_shape x) ≠ 0 →
      ∃ it', run (replicate (Z.to_nat (numel (nd_shape x))) CallNext) it
             = Ok (view_at x [] w <$> rowmajor (nd_shape x), it')) ∧
     (∀ c, length c = length (nd_shape x) →
           slice_spec [] (length (nd_shape x)) c = SNum <$> c)).
Proof.
  split; [done|]. intros w fuel Hok Hne Hfuel it.
  assert (Hlen : (length (@nil Z) < length (nd_shape x))%nat).
  { destruct (nd_shape x); [done|simpl; lia]. }
  assert (Hv : valid_dims (nd_shape x) []).
  { split; [done|]. split; constructor. }
  pose proof (total_steps_nil x Hne) as Ht.
  split; [by apply (setup_spec x [] w)|]. split; [apply free_shape_nil|].
  split; [|split].
  - subst it. rewrite <- Ht.
    apply count_views_initial; [done|constructor|constructor|done|lia].
  - intros Hn. eexists. subst it.
    pose proof (run_rowmajor x [] w Hok (SSorted_nil _) (Forall_nil_2 _) Hlen Hn) as Hr.
    rewrite free_shape_nil in Hr. rewrite numel_product by done. exact Hr.
  - intros c Hc. unfold slice_spec. rewrite stack_mask_nil, <- Hc.
    rewrite <- (length_fmap SNum c). apply scatter_none.
Qed.

Lemma empty_dims_rejected_witness :
  count_views 5 (initial_state (mk_ndarray [2; 2] false) [] false) = Some 4%nat.
Proof.
  apply (proj2 (empty_dims_rejected (mk_ndarray [2; 2] false) None) false 5%nat).
  - decide_now.
  - done.
  - simpl. lia.
Defined.

(** C10 (as stated) fails: construction with an empty dimension list does
    not succeed. *)
Lemma empty_dims_not_accepted :
  ¬ ∃ it, nditerStacks (JNd (mk_ndarray [2; 2] false)) (JArr []) None = Ok it.
Proof. intros [it H]. discriminate H. Qed.

(** * Further properties of the constructor *)



Lemma check_options_errors x options e :
  check_options x options = Throw e → e ∈ constructor_errors.
Proof.
  unfold check_options, constructor_errors.
  destruct options as [[| | | | | | |props| |]|]; try (intros [= <-]; repeat constructor).
  destruct (get_prop props "readonly") as [[| |b| | | | | | |]|];
    try (intros [= <-]; repeat constructor).
  destruct (negb b && nd_readonly x); intros [= <-]. repeat constructor.
Qed.

Lemma setup_errors x ds w e :
  setup x ds w = Throw e → e ∈ constructor_errors.
Proof.
  intros H. unfold constructor_errors.
  destruct (Z.leb_spec (len (nd_shape x)) (len ds)) as [Hle|Hlt].
  { rewrite setup_insufficient in H by done. injection H as <-. repeat constructor. }
  destruct (decide (Forall (λ d, - len (nd_shape x) ≤ d < len (nd_shape x)) ds))
    as [Hr|Hr]; cycle 1.
  { rewrite setup_out_of_range in H by done. injection H as <-. repeat constructor. }
  destruct (setup_order_errors x ds w Hlt Hr) as [Hasc Huniq].
  destruct (decide (Sorted Z.le (norm (len (nd_shape x)) <$> ds))) as [Hle|Hle]; cycle 1.
  { rewrite Hasc in H by done. injection H as <-. repeat constructor. }
  destruct (decide (Sorted Z.lt (norm (len (nd_shape x)) <$> ds))) as [Hs|Hs]; cycle 1.
  { rewrite Huniq in H by done. injection H as <-. repeat constructor. }
  rewrite setup_spec in H; [done|]. split; [unfold len in *; lia|done].
Qed.

(** X2: the constructor throws nothing but its nine documented exceptions;
    in particular the two [take] calls in mode ['throw'] never throw. *)
Theorem constructor_throws_documented_errors (x dims : jsval)
    (options : option jsval) (e : error) :
  nditerStacks x dims options = Throw e → e ∈ constructor_errors.
Proof.
  unfold nditerStacks.
  destruct x as [| | | | | | | |a|];
    try (intros [= <-]; unfold constructor_errors; repeat constructor).
  destruct (isIntegerArray dims); cbn [negb];
    [|intros [= <-]; unfold constructor_errors; repeat constructor].
  destruct (check_options a options) as [w|e'] eqn:Hw; simpl.
  - apply setup_errors.
  - intros [= <-]. by eapply check_options_errors.
Qed.

Lemma constructor_throws_documented_errors_witness :
  RangeError_dimension_index ∈ constructor_errors.
Proof.
  apply (constructor_throws_documented_errors
           (JNd (mk_ndarray [2; 2; 2] false)) (JArr [JInt 3]) None).
  reflexivity.
Defined.

(** X3: an index may be given from the end.  For indices within
    [[-ndims, ndims-1]], construction with the list and construction with
    its normalized form have the same outcome, be it an iterator or an
    exception. *)
Theorem negative_indices_equivalent (x : ndarray) (ds : list Z)
    (options : option jsval) :
  Forall (λ d, - len (nd_shape x) ≤ d < len (nd_shape x)) ds →
  nditerStacks (JNd x) (JArr (JInt <$> ds)) options
  = nditerStacks (JNd x) (JArr (JInt <$> (norm (len (nd_shape x)) <$> ds))) options.
Proof.
  intros Hr. destruct (decide (ds = [])) as [->|Hne]; [done|].
  assert (Hne' : norm (len (nd_shape x)) <$> ds ≠ []) by by destruct ds.
  rewrite !nditerStacks_ints by done.
  destruct (check_options x options) as [w|e]; [simpl|done].
  assert (HD : Forall (λ d, 0 ≤ d < len (nd_shape x)) (norm (len (nd_shape x)) <$> ds)).
  { apply Forall_fmap. eapply Forall_impl; [exact Hr|]. intros d Hd. by apply norm_range. }
  unfold setup. unfold len at 2 5. rewrite length_fmap. fold (len ds).
  destruct (Z.leb_spec (len (nd_shape x)) (len ds)); [done|].
  assert (0 < len (nd_shape x)) by (unfold len in *; lia).
  rewrite !normalize_dims_valid; [|done| |done|done].
  - by rewrite (norm_fixed _ _ HD).
  - eapply Forall_impl; [exact HD|]. simpl. lia.
Qed.

Lemma negative_indices_equivalent_witness :
  nditerStacks (JNd (mk_ndarray [2; 3; 4] false)) (JArr [JInt (-3); JInt (-1)]) None
  = nditerStacks (JNd (mk_ndarray [2; 3; 4] false)) (JArr [JInt 0; JInt 2]) None.
Proof.
  apply (negative_indices_equivalent (mk_ndarray [2; 3; 4] false) [-3; -1] None).
  decide_now.
Defined.

(** X4: an array with fewer than two dimensions is always rejected: the
    dimension list has at least one index, so the array never has more
    dimensions than the list has indices. *)
Theorem fewer_than_two_dimensions (x : ndarray) (dims : jsval)
    (options : option jsval) (w : bool) :
  (length (nd_shape x) ≤ 1)%nat →
  isIntegerArray dims = true → check_options x options = Ok w →
  nditerStacks (JNd x) dims options = Throw TypeError_insufficient_dimensions.
Proof.
  intros Hx (ds & -> & Hne)%isIntegerArray_inv Hw.
  rewrite nditerStacks_ints, Hw by done. simpl.
  apply setup_insufficient. unfold len. destruct ds; [done|]. simpl. lia.
Qed.

Lemma fewer_than_two_dimensions_witness :
  nditerStacks (JNd (mk_ndarray [5] false)) (JArr [JInt 0]) None
  = Throw TypeError_insufficient_dimensions.
Proof.
  apply (fewer_than_two_dimensions (mk_ndarray [5] false) (JArr [JInt 0]) None false).
  - simpl. lia.
  - reflexivity.
  - reflexivity.
Defined.

(** X5: only the key [readonly] of the options object is looked at, and
    [readonly: true] is the default: an options object without that key
    (empty, or with other keys only) or with [readonly: true] gives the same
    outcome as a call without options, for any first and second argument. *)
Theorem default_options_equivalent (x dims : jsval)
    (props : list (string * jsval)) :
  get_prop props "readonly" = None ∨ get_prop props "readonly" = Some (JBool true) →
  nditerStacks x dims (Some (JObj props)) = nditerStacks x dims None.
Proof.
  intros Hp. unfold nditerStacks.
  destruct x as [| | | | | | | |a|]; try done.
  destruct (isIntegerArray dims); [|done]. cbn [negb].
  assert (check_options a (Some (JObj props)) = Ok false) as ->; [|done].
  unfold check_options. by destruct Hp as [->| ->].
Qed.

Lemma default_options_equivalent_witness :
  nditerStacks (JNd (mk_ndarray [2; 2; 2] true)) (JArr [JInt 1])
    (Some (JObj [("writable"%string, JBool true); ("readonly"%string, JBool true)]))
  = nditerStacks (JNd (mk_ndarray [2; 2; 2] true)) (JArr [JInt 1]) None.
Proof.
  apply (default_options_equivalent _ _
           [("writable"%string, JBool true); ("readonly"%string, JBool true)]).
  right. reflexivity.
Defined.

(** * Further properties of the set-up *)

Lemma free_pos_elem m i k :
  k ∈ free_pos m i ↔ ∃ p : nat, k = i + Z.of_nat p ∧ m !! p = Some false.
Proof.
  revert i. induction m as [|b m IH]; intros i.
  - simpl. split; [by intros ?%elem_of_nil|by intros (p & _ & ?)].
  - assert (Hshift : (∃ p : nat, k = i + 1 + Z.of_nat p ∧ m !! p = Some false) ↔
                     (∃ p : nat, k = i + Z.of_nat (S p) ∧ (b :: m) !! S p = Some false)).
    { split; intros (p & -> & Hp); exists p; (split; [lia|done]). }
    destruct b; cbn [free_pos].
    + rewrite IH, Hshift. split.
      * intros (p & ? & ?). by exists (S p).
      * intros ([|p] & ? & Hp); [done|]. by exists p.
    + rewrite elem_of_cons, IH, Hshift. split.
      * intros [->|(p & ? & ?)]; [exists 0%nat; split; [lia|done]|by exists (S p)].
      * intros ([|p] & ? & Hp); [left; lia|right; by exists p].
Qed.

Lemma free_pos_sorted m i : StronglySorted Z.lt (free_pos m i).
Proof.
  revert i. induction m as [|b m IH]; intros i; [constructor|].
  destruct b; cbn [free_pos]; [apply IH|].
  constructor; [apply IH|]. apply Forall_forall. intros k Hk.
  apply free_pos_elem in Hk as (p & -> & _). lia.
Qed.

Lemma free_pos_reads {A} m (pre l : list A) :
  length m = length l →
  Forall2 (λ k s, (pre ++ l) !! Z.to_nat k = Some s)
    (free_pos m (len pre)) (select_free m l).
Proof.
  revert pre l. induction m as [|b m IH]; intros pre [|a l] Hl; try done.
  injection Hl as Hl.
  assert (Hpre : len (pre ++ [a]) = len pre + 1).
  { unfold len. rewrite length_app. simpl. lia. }
  specialize (IH (pre ++ [a]) l Hl). rewrite Hpre, <- (assoc_L (++)) in IH.
  destruct b; cbn [free_pos select_free]; [exact IH|].
  constructor; [|exact IH].
  unfold len. rewrite Nat2Z.id. by apply list_lookup_middle.
Qed.



(** X6: the free dimensions are the ascending complement of the stacked
    ones.  In a constructed iterator [indices] is strictly ascending and
    holds exactly the dimensions of the array that are not in the normalized
    dimension list, the two lists together count [ndims] entries, and [sh]
    holds the extents of the array at the dimensions in [indices]. *)
Theorem free_dimensions_complement (x : ndarray) (ds : list Z)
    (options : option jsval) (it : iterator) :
  nditerStacks (JNd x) (JArr (JInt <$> ds)) options = Ok it →
  let D := norm (len (nd_shape x)) <$> ds in
  it_dims it = D ∧
  StronglySorted Z.lt (it_indices it) ∧
  (∀ k, k ∈ it_indices it ↔ 0 ≤ k < len (nd_shape x) ∧ k ∉ D) ∧
  (length (it_indices it) + length (it_dims it))%nat = length (nd_shape x) ∧
  Forall2 (λ k s, nd_shape x !! Z.to_nat k = Some s) (it_indices it) (it_sh it).
Proof.
  intros (w & _ & _ & Hv & ->)%nditerStacks_inv D.
  destruct (valid_dims_facts _ _ Hv) as (HS & HD & Hlen). fold D in HS, HD, Hlen.
  unfold initial_state, cursor_state. cbn [it_dims it_indices it_sh].
  split; [done|]. split; [apply free_pos_sorted|]. split; [|split].
  - intros k. rewrite free_pos_elem. split.
    + intros (p & -> & Hp). rewrite mask_from_lookup in Hp.
      destruct (decide (p < length (nd_shape x))%nat); [|done].
      injection Hp as Hp. apply bool_decide_eq_false in Hp.
      unfold len. split; [lia|]. by rewrite Z.add_0_l.
    + intros [Hk Hn]. exists (Z.to_nat k). split; [lia|].
      rewrite mask_from_lookup. unfold len in Hk.
      destruct (decide (Z.to_nat k < length (nd_shape x))%nat); [|lia].
      rewrite Z2Nat.id by lia. by rewrite bool_decide_eq_false_2.
  - rewrite free_pos_length.
    pose proof (free_length x D HS HD Hlen) as Hf. unfold free_shape in Hf.
    rewrite select_free_length in Hf by apply mask_length. fold D. lia.
  - apply (free_pos_reads _ []). apply mask_length.
Qed.

Lemma free_dimensions_complement_witness :
  ∃ it,
    nditerStacks (JNd (mk_ndarray [4; 5; 6; 7] false)) (JArr [JInt (-3); JInt 3]) None
    = Ok it ∧
    it_dims it = [1; 3] ∧ (0 ∈ it_indices it ↔ 0 ≤ 0 < 4 ∧ 0 ∉ [1; 3]).
Proof.
  eexists. split; [reflexivity|].
  destruct (free_dimensions_complement (mk_ndarray [4; 5; 6; 7] false) [-3; 3] None _
              eq_refl) as (H1 & _ & H3 & _).
  split; [exact H1|exact (H3 0)].
Defined.

(** * Further properties of the views *)





(** * Further properties of the factory *)



(** * The order of the views *)

Lemma in_bounds_positive sh c : in_bounds sh c → Forall (λ s, 0 < s) sh.
Proof. unfold in_bounds. induction 1; constructor; [lia|done]. Qed.

Lemma product_cons s sh : product (s :: sh) = s * product sh.
Proof. done. Qed.

Lemma ravel_bounds sh c : in_bounds sh c → 0 ≤ ravel sh c < product sh.
Proof.
  unfold in_bounds. induction 1 as [|x s c sh Hx Hb IH].
  - unfold product. simpl. lia.
  - cbn [ravel]. rewrite product_cons.
    pose proof (product_positive sh (in_bounds_positive _ _ Hb)). nia.
Qed.



Lemma ravel_inj sh c c' :
  in_bounds sh c → in_bounds sh c' → ravel sh c = ravel sh c' → c = c'.
Proof.
  unfold in_bounds. intros H. revert c'.
  induction H as [|x s c sh Hx Hb IH]; intros c' H'; inversion H' as [|x' ? c0 ? Hx' Hb']; subst.
  - done.
  - cbn [ravel]. intros Hr.
    pose proof (ravel_bounds _ _ Hb) as B. pose proof (ravel_bounds _ _ Hb') as B'.
    assert (x = x') as -> by nia.
    f_equal. apply IH; [done|lia].
Qed.







Section order.
Variables (x : ndarray) (D : list Z) (w : bool).
Hypothesis Hok : ndarray_ok x.
Hypothesis HS : StronglySorted Z.lt D.
Hypothesis HD : Forall (λ d, 0 ≤ d < len (nd_shape x)) D.
Hypothesis Hlen : (length D < length (nd_shape x))%nat.

Abbreviation sh := (free_shape D (nd_shape x)).
Abbreviation N := (initial_N (nd_shape x) D).

End order.





(** * Empty arrays and early termination *)





Section termination.
Variables (x : ndarray) (D : list Z) (w : bool).
Hypothesis Hok : ndarray_ok x.
Hypothesis HS : StronglySorted Z.lt D.
Hypothesis HD : Forall (λ d, 0 ≤ d < len (nd_shape x)) D.
Hypothesis Hlen : (length D < length (nd_shape x))%nat.

Abbreviation sh := (free_shape D (nd_shape x)).
Abbreviation N := (initial_N (nd_shape x) D).

End termination.


